(** * pageparser/helpers.py: sanitising and rewriting a fetched page

    A shallow embedding of [absolutize_url], [reinforce_text],
    [schemeful_domain], [sterilize_page] and [process_page] of
    src/django/apps/pageparser/helpers.py, with the element tree of lxml
    kept as a store of nodes that the loops of [process_page] update in
    place. *)

From Stdlib Require Import NArith Ascii String List Bool Lia.
From stdpp Require Import base list numbers option.
Import ListNotations.

Open Scope N_scope.
Open Scope nat_scope.

(** ** Python strings

    A Python [str] is a sequence of Unicode code points. *)

Definition char := N.
Definition str := list char.

Fixpoint lit (s : string) : str :=
  match s with
  | EmptyString => []
  | String a s' => N_of_ascii a :: lit s'
  end.

(** Markup literals are written with an apostrophe where the markup has a
    double quote: [markup "<a href='#'>"] is the text <a href="#">. *)
Definition markup (s : string) : str :=
  map (fun c : char => if N.eqb c 39 then 34%N else c) (lit s).

Definition SP : char := 32%N.
Definition SLASH : char := 47%N.

Definition str_eqb (a b : str) : bool := bool_decide (a = b).

Fixpoint startswith (p s : str) : bool :=
  match p, s with
  | [], _ => true
  | _ :: _, [] => false
  | a :: p', b :: s' => N.eqb a b && startswith p' s'
  end.

Definition endswith (p s : str) : bool := startswith (rev p) (rev s).

(** [sep.join(parts)] *)
Fixpoint join (sep : str) (parts : list str) : str :=
  match parts with
  | [] => []
  | [p] => p
  | p :: rest => p ++ sep ++ join sep rest
  end.

(** [s.split(sep)[0]]: the text before the first occurrence of [sep], the
    whole of [s] when there is none. *)
Fixpoint before_sep (sep s : str) : str :=
  match s with
  | [] => []
  | c :: s' => if startswith sep s then [] else c :: before_sep sep s'
  end.

(** ** Documents

    A parsed document is an [element]: its tag, its attributes, the text
    before its first child, its children and the text behind its end tag.
    A comment or a processing instruction of the document is a node of this
    type as well, as it is in lxml: it has a tag no element has ([COMMENT],
    [PROCESSING_INSTRUCTION] below), its content as its text, a tail and
    no child. *)

#[warnings="-register-all"]
Inductive element :=
| Element (tag : str) (attrib : list (str * str)) (text : option str)
          (children : list element) (tail : option str).

(** ** What the interpreter supplies

    The character tables of the Unicode database, the iteration order of a
    [set] of strings (fixed by the string hash of the running process), the
    parsers and the writers of lxml, [html.unescape], the link filter of
    lxml's [Cleaner] and the part of Django's [URLValidator.__call__] that
    follows its scheme test are not code of the repository; the embedding
    takes them as one interface. *)

(** How a call of [etree.fromstring] on a [str] ends. *)
Inductive parse :=
| Root (doc : element)   (** the call returns the root element *)
| NotWellFormed          (** the call raises XMLSyntaxError *)
| Declared.              (** the text declares an encoding: ValueError *)

(** How a call of a validator ends. *)
Inductive validation :=
| Valid               (** the call returns *)
| ValidationError     (** the call raises ValidationError *)
| UrlsplitError.      (** [urlsplit] inside the call raises ValueError *)

Class Interp := {
  (** [c.isalpha()] *)
  isalpha : char -> bool;
  (** [c.isspace()], the characters [str.split()] and [str.strip()] cut at *)
  isspace : char -> bool;
  (** the class [\w] of [re] on [str] patterns: alphanumeric or underscore *)
  isword : char -> bool;
  (** [s.lower()] *)
  str_lower : str -> str;
  (** the order in which [for word in set(l)] yields the distinct members *)
  set_iter : list str -> list str;
  (** the checks of [URLValidator.__call__] after the scheme test: the
      pattern, the retry with an IDNA-encoded host under its [try], and,
      outside every [try], [urlsplit(value)] for the address check of a host
      in brackets and the bound on the length of the network location *)
  url_wellformed : str -> validation;
  (** [lxml.html.fromstring]: the element it returns, [None] when it
      raises (ParserError on a page without content, ValueError on a text
      that declares an encoding) *)
  html_fromstring : str -> option element;
  (** what [Cleaner]'s [rewrite_links] leaves of a link: the link without
      the white space around it, or nothing for a scripting scheme *)
  rewrite_link : str -> str;
  (** [lxml.html.tostring(doc, encoding='unicode')], which ends
      [Cleaner.clean_html] on a text *)
  html_tostring : element -> str;
  (** [etree.fromstring] *)
  fromstring : str -> parse;
  (** [etree.tostring(root, method='html').decode()] *)
  tostring : element -> str;
  (** [html.unescape] *)
  unescape : str -> str;
  isspace_SP : isspace SP = true;
  set_iter_perm : forall l, set_iter l ≡ₚ remove_dups l
}.

(** ** absolutize_url *)

(** Python's [None] result is [None] here: the function falls off its end
    when neither test holds. *)
Definition absolutize_url (address path : str) : option str :=
  if xorb (endswith [SLASH] address) (startswith [SLASH] path) then
    Some (address ++ path)
  else if endswith [SLASH] address && startswith [SLASH] path then
    Some (address ++ drop 1 path)
  else None.

(** ** reinforce_text *)

Section Reinforce.
Context `{Interp}.

(** [s.split()] with no argument: the maximal runs of characters that are
    not whitespace. [cur] is the run being read. *)
Fixpoint split_from (cur : str) (s : str) : list str :=
  match s with
  | [] => match cur with [] => [] | _ => [cur] end
  | c :: s' =>
      if isspace c then
        match cur with
        | [] => split_from [] s'
        | _ => cur :: split_from [] s'
        end
      else split_from (cur ++ [c]) s'
  end.

Definition split (s : str) : list str := split_from [] s.

(** [s.strip()] is non-empty, as a truth value *)
Definition nonblank (s : str) : bool := existsb (fun c => negb (isspace c)) s.

(** [x and x.strip()] for a text slot that is [None] or a string *)
Definition has_text (t : option str) : bool :=
  match t with
  | None => false
  | Some s => nonblank s
  end.

(** [''.join((char if char.isalpha() else ' ') for char in text).split()] *)
Definition words (text : str) : list str :=
  split (map (fun c => if isalpha c then c else SP) text).

Definition strong (word : str) : str :=
  lit "<strong>" ++ word ++ lit "</strong>".

(** [\b] between a character and its successor; the ends of the text count
    as characters outside [\w]. *)
Definition is_word_opt (c : option char) : bool :=
  match c with
  | None => false
  | Some c => isword c
  end.

Definition boundary (before after : option char) : bool :=
  xorb (is_word_opt before) (is_word_opt after).

(** [\b word \b] matches at the head of [s], the character before it being
    [prev]. *)
Definition match_here (word : str) (prev : option char) (s : str) : bool :=
  boundary prev (head s)
  && startswith word s
  && boundary (list.last word) (head (drop (length word) s)).

(** [re.sub(fr'\b{word}\b', f'<strong>{word}</strong>', text)] for a word
    of letters, which holds no character that is special in a pattern or in
    a replacement template. The scan goes from left to right; after a match
    it resumes behind the matched text, which [skip] counts down. *)
Fixpoint sub_from (word : str) (prev : option char) (skip : nat) (s : str) : str :=
  match s with
  | [] => []
  | c :: s' =>
      match skip with
      | S k => sub_from word (Some c) k s'
      | O =>
          if match_here word prev s then
            strong word ++ sub_from word (Some c) (length word - 1) s'
          else c :: sub_from word (Some c) 0 s'
      end
  end.

Definition re_sub_word (word text : str) : str := sub_from word None 0 text.

(** The body of the loop over the set of words. *)
Definition reinforce_step (text word : str) : str :=
  if 4 <? length word then re_sub_word word text else text.

(** The loop run over the words in a given order. *)
Definition reinforce_in (order : list str) (text : str) : str :=
  join [SP] (split (foldl reinforce_step text order)) ++ [SP].

Definition reinforce_text (text : str) : str :=
  reinforce_in (set_iter (words text)) text.

End Reinforce.

(** ** An interpreter for ASCII text

    The tables below agree with CPython on the code points below 128 and
    treat every other code point as neither letter, digit nor space. *)

Module Ascii7.

Definition between (lo hi c : N) : bool := N.leb lo c && N.leb c hi.

Definition isupper (c : char) : bool := between 65 90 c.
Definition islower (c : char) : bool := between 97 122 c.
Definition isdigit (c : char) : bool := between 48 57 c.
Definition isalpha (c : char) : bool := isupper c || islower c.
Definition isspace (c : char) : bool := between 9 13 c || between 28 32 c.
Definition isword (c : char) : bool := isalpha c || isdigit c || N.eqb c 95.
Definition tolower (c : char) : char := if isupper c then (c + 32)%N else c.
Definition str_lower (s : str) : str := map tolower s.

(** First-insertion order: each word at its first occurrence. *)
Definition first_seen (l : list str) : list str :=
  reverse (remove_dups (reverse l)).

End Ascii7.

(** ** Exceptions and the store of element nodes

    [etree.fromstring] returns a tree of mutable nodes; the list that
    [root.xpath] returns and the tree share those nodes. A node is named by
    its index in the store, a node created later is appended. *)

Inductive exn :=
| KeyError          (** [attrib['href']] on a node without that attribute *)
| AttributeError    (** [getparent()] gave [None] and [.remove] was called on it *)
| TypeError         (** an attribute set to [None] *)
| ValueError        (** [urlsplit] on unbalanced brackets; a string lxml refuses
                        to store or to parse; [remove] of a non-child *)
| XMLSyntaxError    (** [etree.fromstring] refused the text *)
| Dangling.         (** a reference to no node: no run of the program gets here *)

Record node := Node {
  el_tag : str;
  el_attrib : list (str * str);
  el_text : option str;
  el_tail : option str;
  el_children : list nat;
  el_parent : option nat
}.

Abbreviation store := (list node).

Definition M (A : Type) : Type := store -> exn + (A * store).

Definition ret {A} (a : A) : M A := fun s => inr (a, s).
Definition raise {A} (e : exn) : M A := fun _ => inl e.
Definition bind {A B} (m : M A) (k : A -> M B) : M B :=
  fun s => match m s with
           | inl e => inl e
           | inr (a, s') => k a s'
           end.

Notation "'do' x <- m ; k" := (bind m (fun x => k))
  (at level 10, x name, m at level 100, k at level 200).
Notation "m ;; k" := (bind m (fun _ => k))
  (at level 100, k at level 200, right associativity).

(** [for x in l: body(x)], the first exception ends the loop. *)
Fixpoint for_each {A} (l : list A) (body : A -> M unit) : M unit :=
  match l with
  | [] => ret tt
  | x :: l' => body x ;; for_each l' body
  end.

Definition get_node (i : nat) : M node :=
  fun s => match s !! i with
           | Some n => inr (n, s)
           | None => inl Dangling
           end.

Definition put_node (i : nat) (n : node) : M unit :=
  fun s => inr (tt, <[i := n]> s).

Definition modify (i : nat) (f : node -> node) : M unit :=
  do n <- get_node i; put_node i (f n).

Definition with_text (t : option str) (n : node) : node :=
  Node (el_tag n) (el_attrib n) t (el_tail n) (el_children n) (el_parent n).
Definition with_tail (t : option str) (n : node) : node :=
  Node (el_tag n) (el_attrib n) (el_text n) t (el_children n) (el_parent n).
Definition with_attrib (a : list (str * str)) (n : node) : node :=
  Node (el_tag n) a (el_text n) (el_tail n) (el_children n) (el_parent n).
Definition with_children (c : list nat) (n : node) : node :=
  Node (el_tag n) (el_attrib n) (el_text n) (el_tail n) c (el_parent n).
Definition with_parent (p : option nat) (n : node) : node :=
  Node (el_tag n) (el_attrib n) (el_text n) (el_tail n) (el_children n) p.

(** *** The lxml operations the program calls *)

(** [etree.Element(tag)] *)
Definition new_element (tag : str) : M nat :=
  fun s => inr (length s, s ++ [Node tag [] None None [] None]).

(** [d[key]] and [d[key] = value] on the attributes, kept in document order *)
Fixpoint attr_get (key : str) (a : list (str * str)) : option str :=
  match a with
  | [] => None
  | (k, v) :: a' => if str_eqb k key then Some v else attr_get key a'
  end.

Fixpoint attr_set (key value : str) (a : list (str * str)) : list (str * str) :=
  match a with
  | [] => [(key, value)]
  | (k, v) :: a' =>
      if str_eqb k key then (k, value) :: a' else (k, v) :: attr_set key value a'
  end.

Definition mem_code (c : char) (l : list char) : bool := existsb (N.eqb c) l.

Definition attrib_getitem (i : nat) (key : str) : M str :=
  do n <- get_node i;
  match attr_get key (el_attrib n) with
  | Some v => ret v
  | None => raise KeyError
  end.

(** The characters lxml takes in a string it is to store: those of XML,
    which leaves out the control characters other than tab, line feed and
    carriage return, the surrogates, U+FFFE and U+FFFF. *)
Definition xml_char (c : char) : bool :=
  if N.ltb c 32 then mem_code c [9; 10; 13]%N
  else if N.leb 55296 c && N.leb c 57343 then false
  else negb (mem_code c [65534; 65535]%N).

Definition xml_compatible (s : str) : bool := forallb xml_char s.

(** [d[key] = value]: [None] is no string (TypeError), and a string XML
    cannot hold is refused with ValueError. The texts the program stores
    ([em.text], and [text] and [tail] in the second loop) are texts of the
    parsed document or made of them by [reinforce_text], which adds
    letters, [<], [>], [/] and spaces; the parser has taken every
    character of theirs, so only the href, into which the target goes, can
    be refused. *)
Definition attrib_setitem (i : nat) (key : str) (value : option str) : M unit :=
  match value with
  | None => raise TypeError
  | Some v =>
      if xml_compatible v
      then modify i (fun n => with_attrib (attr_set key v (el_attrib n)) n)
      else raise ValueError
  end.

Definition remove_id (i : nat) (l : list nat) : list nat :=
  filter (fun j => j <> i) l.

(** [parent.remove(child)]: the child leaves the child list of its parent
    and takes its tail text with it; nothing is written to any text or tail
    slot. *)
Definition remove (p c : nat) : M unit :=
  do cn <- get_node c;
  if bool_decide (el_parent cn = Some p) then
    modify p (fun n => with_children (remove_id c (el_children n)) n) ;;
    modify c (with_parent None)
  else raise ValueError.

(** [node.insert(0, child)]: a child that hangs elsewhere is moved. *)
Definition insert0 (p c : nat) : M unit :=
  do cn <- get_node c;
  match el_parent cn with
  | Some q => modify q (fun n => with_children (remove_id c (el_children n)) n)
  | None => ret tt
  end ;;
  modify p (fun n => with_children (c :: el_children n) n) ;;
  modify c (with_parent (Some p)).

(** [node.getparent().remove(node)] *)
Definition remove_from_parent (c : nat) : M unit :=
  do cn <- get_node c;
  match el_parent cn with
  | None => raise AttributeError
  | Some p => remove p c
  end.

(** Document order below a node, the node first. A tree of [n] nodes is no
    deeper than [n], which bounds the descent. *)
Fixpoint subtree (depth : nat) (s : store) (i : nat) : list nat :=
  match depth with
  | O => []
  | S d =>
      match s !! i with
      | None => []
      | Some n => i :: flat_map (subtree d s) (el_children n)
      end
  end.

(** [root.iter()] *)
Definition iter (root : nat) : M (list nat) :=
  fun s => inr (subtree (length s) s root, s).

Definition A_TAG : str := lit "a".

Definition is_anchor (s : store) (i : nat) : bool :=
  match s !! i with
  | Some n => str_eqb (el_tag n) A_TAG
  | None => false
  end.

(** [root.xpath(".//a")]: the [a] elements below the root, in document
    order; the root itself is not among them. *)
Definition anchors_below (s : store) (root : nat) : list nat :=
  filter (fun i => is_anchor s i = true) (drop 1 (subtree (length s) s root)).

Definition xpath_anchors (root : nat) : M (list nat) :=
  fun s => inr (anchors_below s root, s).

(** ** schemeful_domain

    [urlparse] of the standard library (Python 3.6), as far as the scheme
    and the network location go. Later versions of the library refuse
    more addresses (a network location with a character whose
    compatibility form holds one of [/?#@:], a host in brackets that is
    no address) and drop tabs and line ends from an address first. *)

Definition COLON : char := 58%N.

Definition scheme_char (c : char) : bool :=
  Ascii7.isalpha c || Ascii7.isdigit c || N.eqb c 43 || N.eqb c 45 || N.eqb c 46.

Definition mem_char (c : char) (s : str) : bool := existsb (N.eqb c) s.

(** [url.find(':')] splits the text at the first colon, if any. *)
Fixpoint cut_at (d : char) (s : str) : option (str * str) :=
  match s with
  | [] => None
  | c :: s' =>
      if N.eqb c d then Some ([], s')
      else match cut_at d s' with
           | Some (a, b) => Some (c :: a, b)
           | None => None
           end
  end.

(** The scheme and what follows it. A prefix of scheme characters before
    the first colon is the scheme unless only digits follow (a port);
    [http] is taken as it stands. *)
Definition split_scheme (url : str) : str * str :=
  match cut_at COLON url with
  | Some (c :: pre, rest) =>
      if str_eqb (c :: pre) (lit "http") then (c :: pre, rest)
      else if forallb scheme_char (c :: pre) then
        if match rest with [] => false | _ => true end
           && forallb Ascii7.isdigit rest
        then ([], url)
        else (Ascii7.str_lower (c :: pre), rest)
      else ([], url)
  | _ => ([], url)
  end.

(** [_splitnetloc(url, 2)]: up to the first of [/], [?] and [#]. *)
Fixpoint netloc_of (s : str) : str :=
  match s with
  | [] => []
  | c :: s' => if mem_char c (lit "/?#") then [] else c :: netloc_of s'
  end.

Definition urlparse (url : str) : exn + (str * str) :=
  let '(scheme, rest) := split_scheme url in
  if startswith (lit "//") rest then
    let netloc := netloc_of (drop 2 rest) in
    if xorb (mem_char 91%N netloc) (mem_char 93%N netloc) then inl ValueError
    else inr (scheme, netloc)
  else inr (scheme, []).

Definition schemeful_domain (target_url : str) : exn + str :=
  match urlparse target_url with
  | inl e => inl e
  | inr (scheme, netloc) => inr (scheme ++ lit "://" ++ netloc ++ lit "/")
  end.

(** ** The URL test of process_page

    [URLValidator()] of Django: [__call__] first compares
    [value.split('://')[0].lower()] with the schemes of the validator and
    raises ValidationError when it is none of them, then runs its other
    checks. [helpers.py] builds the validator with no argument, so the
    schemes are the class default; [forms.py] passes
    [schemes=['http', 'https']] for the form field. *)

Definition default_schemes : list str :=
  [lit "http"; lit "https"; lit "ftp"; lit "ftps"].

Section Process.
Context `{Interp}.

Definition URLValidator (schemes : list str) (value : str) : validation :=
  if bool_decide (str_lower (before_sep (lit "://") value) ∈ schemes)
  then url_wellformed value
  else ValidationError.

Definition HREF : str := lit "href".
Definition EM : str := lit "em".

(** ** process_page: the loop over the anchors *)

(** The [try] block with its handler, which catches ValidationError and
    nothing else. *)
Definition fix_href (target_url : str) (a_tag : nat) : M unit :=
  do href <- attrib_getitem a_tag HREF;
  match URLValidator default_schemes href with
  | Valid => ret tt
  | UrlsplitError => raise ValueError
  | ValidationError =>
      match schemeful_domain target_url with
      | inl e => raise e
      | inr root =>
          do href' <- attrib_getitem a_tag HREF;
          attrib_setitem a_tag HREF (absolutize_url root href')
      end
  end.

(** Whether the [try] block with its handler raises ValueError on an
    href: [urlsplit] raises inside the validator, or the validator raises
    ValidationError and then the target has no root or lxml refuses the
    address made of the root and the href. *)
Definition href_raises (target_url href : str) : bool :=
  match URLValidator default_schemes href with
  | Valid => false
  | UrlsplitError => true
  | ValidationError =>
      match schemeful_domain target_url with
      | inl _ => true
      | inr root =>
          match absolutize_url root href with
          | Some url => negb (xml_compatible url)
          | None => false
          end
      end
  end.

Definition anchor_body (target_url : str) (a_tag : nat) : M unit :=
  do n <- get_node a_tag;
  if has_text (el_text n) then
    do em <- new_element EM;
    modify em (with_text (el_text n)) ;;
    modify a_tag (with_text None) ;;
    insert0 a_tag em ;;
    fix_href target_url a_tag
  else remove_from_parent a_tag.

(** ** process_page: the loop over all elements *)

Definition reinforce_slot (t : option str) : option str :=
  if has_text t then option_map reinforce_text t else t.

Definition element_body (element : nat) : M unit :=
  modify element (fun n => with_text (reinforce_slot (el_text n)) n) ;;
  modify element (fun n => with_tail (reinforce_slot (el_tail n)) n).

(** The two loops on a parsed tree. *)
Definition process_tree (target_url : str) (root : nat) : M unit :=
  do anchors <- xpath_anchors root;
  for_each anchors (anchor_body target_url) ;;
  do elements <- iter root;
  for_each elements element_body.

End Process.

(** ** Trees as text

    The reader and the writer of the interpreter for ASCII text below:
    what [etree.fromstring], [tostring] with [method='html'] and
    [html.unescape] do on the text of a document that consists of elements
    and printable ASCII characters. *)

Definition LT : char := 60%N.
Definition GT : char := 62%N.
Definition AMP : char := 38%N.
Definition QUOT : char := 34%N.
Definition APOS : char := 39%N.
Definition EQUALS : char := 61%N.

(** [None] for an empty text slot, as lxml has it. *)
Definition opt_text (t : str) : option str :=
  match t with
  | [] => None
  | _ => Some t
  end.

Definition text_of (t : option str) : str := default [] t.

(** *** Reading XML

    The reader covers the documents a sterile page consists of: elements
    with quoted attributes, text and the five predefined entities. For
    anything else of XML (comments, CDATA sections, processing
    instructions, declarations, character references, namespaces) it
    answers [None], as it does for text that is not well-formed; on those
    the reader is not [etree.fromstring]. *)

Definition name_char (c : char) : bool :=
  Ascii7.isalpha c || Ascii7.isdigit c || mem_char c (lit "-_.").

Definition xml_space (c : char) : bool := mem_char c [32; 9; 10; 13]%N.

Fixpoint span (p : char -> bool) (s : str) : str * str :=
  match s with
  | [] => ([], [])
  | c :: s' => if p c then let '(a, b) := span p s' in (c :: a, b) else ([], s)
  end.

Definition skip_space (s : str) : str := snd (span xml_space s).

Definition entities : list (str * char) :=
  [(lit "lt;", LT); (lit "gt;", GT); (lit "amp;", AMP);
   (lit "quot;", QUOT); (lit "apos;", APOS)].

(** The entity that starts behind an ampersand: its character and the
    number of characters of its name. *)
Definition entity_at (s : str) : option (char * nat) :=
  match filter (fun e => startswith (fst e) s = true) entities with
  | (name, c) :: _ => Some (c, length name)
  | [] => None
  end.

(** Character data up to the first character in [stop], entities
    replaced; [skip] counts down the name of an entity just read. *)
Fixpoint read_text (stop : char -> bool) (skip : nat) (s : str) : option (str * str) :=
  match s with
  | [] => Some ([], [])
  | c :: s' =>
      match skip with
      | S k => read_text stop k s'
      | O =>
          if stop c then Some ([], s)
          else if N.eqb c AMP then
            match entity_at s' with
            | Some (d, n) =>
                match read_text stop n s' with
                | Some (t, rest) => Some (d :: t, rest)
                | None => None
                end
            | None => None
            end
          else
            match read_text stop 0 s' with
            | Some (t, rest) => Some (c :: t, rest)
            | None => None
            end
      end
  end.

Definition is_lt (c : char) : bool := N.eqb c LT.

(** Attribute-value normalisation: a tab or line break counts as a space. *)
Definition norm_attr (v : str) : str :=
  map (fun c => if xml_space c then SP else c) v.

Fixpoint read_attrs (fuel : nat) (s : str) : option (list (str * str) * str) :=
  match fuel with
  | O => None
  | S f =>
      let s1 := skip_space s in
      match span name_char s1 with
      | ([], _) => Some ([], s1)
      | (name, s2) =>
          match skip_space s2 with
          | e :: s3 =>
              if N.eqb e EQUALS then
                match skip_space s3 with
                | q :: s4 =>
                    if N.eqb q QUOT || N.eqb q APOS then
                      match read_text (fun c => N.eqb c q || N.eqb c LT) 0 s4 with
                      | Some (v, q' :: s5) =>
                          if N.eqb q' q then
                            match read_attrs f s5 with
                            | Some (rest, s6) =>
                                match attr_get name rest with
                                | None => Some ((name, norm_attr v) :: rest, s6)
                                | Some _ => None
                                end
                            | None => None
                            end
                          else None
                      | _ => None
                      end
                    else None
                | [] => None
                end
              else None
          | [] => None
          end
      end
  end.

Definition set_tail (t : option str) (e : element) : element :=
  match e with
  | Element tag attrib text children _ => Element tag attrib text children t
  end.

Fixpoint read_element (fuel : nat) (s : str) : option (element * str) :=
  match fuel with
  | O => None
  | S f =>
      match s with
      | c :: s1 =>
          if N.eqb c LT then
            match span name_char s1 with
            | ([], _) => None
            | (name, s2) =>
                match read_attrs (length s2) s2 with
                | Some (attrs, s3) =>
                    if startswith (lit "/>") s3 then
                      Some (Element name attrs None [] None, drop 2 s3)
                    else if startswith (lit ">") s3 then
                      match read_text is_lt 0 (drop 1 s3) with
                      | Some (txt, s4) =>
                          match read_children f s4 with
                          | Some (kids, s5) =>
                              let '(name', s6) := span name_char (drop 2 s5) in
                              let s7 := skip_space s6 in
                              if str_eqb name' name && startswith (lit ">") s7 then
                                Some (Element name attrs (opt_text txt) kids None, drop 1 s7)
                              else None
                          | None => None
                          end
                      | None => None
                      end
                    else None
                | None => None
                end
            end
          else None
      | [] => None
      end
  end
with read_children (fuel : nat) (s : str) : option (list element * str) :=
  match fuel with
  | O => None
  | S f =>
      if startswith (lit "</") s then Some ([], s)
      else
        match read_element f s with
        | Some (e, s1) =>
            match read_text is_lt 0 s1 with
            | Some (tl, s2) =>
                match read_children f s2 with
                | Some (rest, s3) => Some (set_tail (opt_text tl) e :: rest, s3)
                | None => None
                end
            | None => None
            end
        | None => None
        end
  end.

(** The document: one element, white space around it. *)
Definition read_document (s : str) : option element :=
  match read_element (length s) (skip_space s) with
  | Some (e, rest) =>
      match skip_space rest with
      | [] => Some e
      | _ => None
      end
  | None => None
  end.

(** *** From a document to the store and back *)

(** The nodes of [e] are appended in document order; the result is the
    index of the node of [e]. *)
Fixpoint load (parent : option nat) (e : element) (s : store) : nat * store :=
  match e with
  | Element tag attrib text children tail =>
      let i := length s in
      let s1 := s ++ [Node tag attrib text tail [] parent] in
      let '(kids, s2) :=
        (fix load_all (l : list element) (s : store) : list nat * store :=
           match l with
           | [] => ([], s)
           | c :: l' =>
               let '(j, s') := load (Some i) c s in
               let '(js, s'') := load_all l' s' in
               (j :: js, s'')
           end) children s1 in
      (i, alter (with_children kids) i s2)
  end.

(** The document below node [i], read off the store. *)
Fixpoint snapshot (depth : nat) (s : store) (i : nat) : option element :=
  match depth with
  | O => None
  | S d =>
      match s !! i with
      | None => None
      | Some n =>
          Some (Element (el_tag n) (el_attrib n) (el_text n)
                  (omap (snapshot d s) (el_children n)) (el_tail n))
      end
  end.

(** *** Writing HTML

    The HTML writer of libxml2 on a document of elements. Text is written
    with [&], [<] and [>] as entities. An attribute value gets the same
    entities and stands in double quotes; when it holds a double quote it
    stands in apostrophes, and when it holds both, its double quotes are
    written as entities. The value of an [href], [src] or [action], and of
    the [name] of an anchor, is written without the blanks in front of it
    and with every character that is no URI character as a percent escape.
    An attribute HTML knows as a flag is written as its name alone. *)

Definition escape_char (quot : bool) (c : char) : str :=
  if N.eqb c AMP then lit "&amp;"
  else if N.eqb c LT then lit "&lt;"
  else if N.eqb c GT then lit "&gt;"
  else if quot && N.eqb c QUOT then lit "&quot;"
  else [c].

Definition escape (quot : bool) (t : str) : str := flat_map (escape_char quot) t.

(** [xmlURIEscapeStr(value, "@/:=?;#%&,+<>")] on ASCII text: letters,
    digits, the marks of a URI and the characters listed stay. *)
Definition uri_char (c : char) : bool :=
  if Ascii7.isalpha c then true
  else if Ascii7.isdigit c then true
  else if mem_char c (lit "-_.!~*'()") then true
  else if mem_char c (lit "@/:=?;#%&,+<>") then true
  else negb (N.ltb c 128).

Definition hex_digit (n : N) : char :=
  if N.ltb n 10 then (48 + n)%N else (55 + n)%N.

Definition PERCENT : char := 37%N.

Definition uri_escape (t : str) : str :=
  flat_map (fun c => if uri_char c then [c]
                     else [PERCENT; hex_digit (c / 16); hex_digit (c mod 16)]) t.

Definition xml_blank (c : char) : bool := mem_char c [32; 9; 10; 13]%N.

Fixpoint drop_blanks (t : str) : str :=
  match t with
  | c :: t' => if xml_blank c then drop_blanks t' else t
  | [] => []
  end.

(** [xmlBufWriteQuotedString] *)
Definition quoted (t : str) : str :=
  if mem_char QUOT t then
    if mem_char APOS t then
      [QUOT] ++ flat_map (fun c => if N.eqb c QUOT then lit "&quot;" else [c]) t ++ [QUOT]
    else [APOS] ++ t ++ [APOS]
  else [QUOT] ++ t ++ [QUOT].

Definition uri_attrs : list str := map lit ["href"; "action"; "src"]%string.

Definition flag_attrs : list str :=
  map lit ["checked"; "compact"; "declare"; "defer"; "disabled"; "ismap";
           "multiple"; "nohref"; "noresize"; "noshade"; "nowrap"; "readonly";
           "selected"]%string.

(** [htmlAttrDumpOutput] for an attribute of an element with the tag [tag] *)
Definition write_attr (tag : str) (kv : str * str) : str :=
  let name := Ascii7.str_lower (fst kv) in
  [SP] ++ fst kv
  ++ (if bool_decide (name ∈ flag_attrs) then []
      else
        match snd kv with
        | [] => [EQUALS; QUOT; QUOT]
        | _ =>
            [EQUALS]
            ++ quoted
                 (if (if bool_decide (name ∈ uri_attrs) then true
                      else if str_eqb name (lit "name")
                           then str_eqb (Ascii7.str_lower tag) (lit "a")
                           else false)
                  then uri_escape (drop_blanks (escape false (snd kv)))
                  else escape false (snd kv))
        end).

(** The elements HTML writes without content and end tag. *)
Definition void_tags : list str :=
  map lit ["area"; "base"; "basefont"; "br"; "col"; "frame"; "hr"; "img";
           "input"; "isindex"; "link"; "meta"; "param"; "embed"]%string.

Fixpoint write_element (e : element) : str :=
  match e with
  | Element tag attrib text children tail =>
      [LT] ++ tag ++ flat_map (write_attr tag) attrib ++ [GT]
      ++ (if bool_decide (tag ∈ void_tags) then []
          else escape false (text_of text)
               ++ flat_map write_element children
               ++ lit "</" ++ tag ++ [GT])
      ++ escape false (text_of tail)
  end.

(** [html.unescape] on what [write_element] produces: every ampersand of
    such a text starts one of the entities written above. Character
    references, the other named entities of HTML and entities without their
    semicolon are not among them and stay as they are. *)
Fixpoint unescape_from (skip : nat) (s : str) : str :=
  match s with
  | [] => []
  | c :: s' =>
      match skip with
      | S k => unescape_from k s'
      | O =>
          if N.eqb c AMP then
            match entity_at s' with
            | Some (d, n) => d :: unescape_from n s'
            | None => c :: unescape_from 0 s'
            end
          else c :: unescape_from 0 s'
      end
  end.

Definition ascii_unescape (s : str) : str := unescape_from 0 s.

(** ** process_page *)

Section ProcessPage.
Context `{Interp}.

(** The function behind the parser: the tree is built, the two loops run
    on it, the tree is written out. *)
Definition process_document (target_url : str) (doc : element) : exn + str :=
  let '(root, s) := load None doc [] in
  match process_tree target_url root s with
  | inl e => inl e
  | inr (_, s') =>
      match snapshot (length s') s' root with
      | Some out => inr (unescape (tostring out))
      | None => inl Dangling
      end
  end.

Definition process_page (sterile_page target_url : str) : exn + str :=
  match fromstring sterile_page with
  | Root doc => process_document target_url doc
  | NotWellFormed => inl XMLSyntaxError
  | Declared => inl ValueError
  end.

End ProcessPage.

(** ** sterilize_page

    [Cleaner(style=True, allow_tags=['a'], remove_unknown_tags=False,
    safe_attrs_only=True, safe_attrs=['href'])] of [lxml.html.clean]; the
    options the call leaves out have their defaults.

    The cleaner collects the elements to delete with their content,
    [kill_tags], and the elements to replace by their content,
    [remove_tags], from its options:
    - [scripts]: kills [script];
    - [comments], [processing_instructions]: kill comments and processing
      instructions;
    - [style]: kills [style];  [links]: kills [link];  [meta]: kills [meta];
    - [page_structure]: removes [head], [html], [title];
    - [embedded]: kills [applet], removes [iframe], [embed], [layer],
      [object], [param], and deletes a [param] outside [applet] and [object];
    - [frames]: kills [frameset], [frame], [noframes];
    - [forms]: removes [form], kills [button], [input], [select],
      [textarea];
    - [annoying_tags]: removes [blink], [marquee].
    With [allow_tags], every element left whose tag is not allowed is
    replaced by its content; the root cannot be, it becomes a [div]. *)

(** The tags under which a document holds its comments and processing
    instructions; no element has such a tag. A processing instruction has
    its target as its one attribute. *)
Definition COMMENT : str := lit "<!--".
Definition PROCESSING_INSTRUCTION : str := lit "<?".

Definition kill_tags : list str :=
  map lit ["script"; "style"; "link"; "meta"; "applet"; "frameset"; "frame";
           "noframes"; "button"; "input"; "select"; "textarea"]%string
  ++ [COMMENT; PROCESSING_INSTRUCTION].

Definition remove_tags : list str :=
  map lit ["head"; "html"; "title"; "iframe"; "embed"; "layer"; "object";
           "param"; "form"; "blink"; "marquee"]%string.

Definition allow_tags : list str := [A_TAG].
Definition safe_attrs : list str := [lit "href"].

Definition DIV : str := lit "div".
Definition PARAM : str := lit "param".

Inductive verdict :=
| Keep      (** the element stays *)
| Kill      (** [drop_tree]: the element goes with its content *)
| Unwrap.   (** [drop_tag]: the content of the element takes its place *)

(** [embedded] is true below an [applet] or [object]. *)
Definition verdict_of (embedded : bool) (tag : str) : verdict :=
  if bool_decide (tag = PARAM) && negb embedded then Kill
  else if bool_decide (tag ∈ kill_tags) then Kill
  else if bool_decide (tag ∈ remove_tags) then Unwrap
  else if bool_decide (tag ∈ allow_tags) then Keep
  else Unwrap.

Definition embeds (tag : str) : bool :=
  bool_decide (tag = lit "applet") || bool_decide (tag = lit "object").

Definition add_tail (t : str) (e : element) : element :=
  match e with
  | Element tag attrib text children tail =>
      Element tag attrib text children (Some (text_of tail ++ t))
  end.

(** The content of a parent while it is rebuilt: its text and the children
    it has so far, the last one first. [attach] is what [drop_tree] and
    [drop_tag] do with a text that loses its element: it goes behind the
    previous sibling, or behind the text of the parent when there is none. *)
Definition content : Type := option str * list element.

Definition attach (t : option str) (c : content) : content :=
  match t with
  | None | Some [] => c
  | Some t' =>
      match c with
      | (text, []) => (Some (text_of text ++ t'), [])
      | (text, e :: done) => (text, add_tail t' e :: done)
      end
  end.

Section Sterilize.
Context `{Interp}.

(** [safe_attrs_only], then [rewrite_links] on what is left. *)
Definition clean_attrib (attrib : list (str * str)) : list (str * str) :=
  map (fun kv => (fst kv, rewrite_link (snd kv)))
      (filter (fun kv => fst kv ∈ safe_attrs) attrib).

(** One element of the document, put behind the content [c]. *)
Fixpoint clean_element (embedded : bool) (e : element) (c : content) : content :=
  match e with
  | Element tag attrib text children tail =>
      let below := embedded || embeds tag in
      let clean_all :=
        fix clean_all (l : list element) (c : content) : content :=
          match l with
          | [] => c
          | e' :: l' => clean_all l' (clean_element below e' c)
          end in
      match verdict_of embedded tag with
      | Kill => attach tail c
      | Unwrap => attach tail (clean_all children (attach text c))
      | Keep =>
          let '(text', kids) := clean_all children (text, []) in
          (fst c, Element tag (clean_attrib attrib) text' (rev kids) tail :: snd c)
      end
  end.

Definition clean_children (embedded : bool) (l : list element) (c : content) : content :=
  fold_left (fun c e => clean_element embedded e c) l c.

(** [clean_html] raises when the parser does, and what the parser
    raised. *)
Inductive clean_error := ParserRaised.

(** [Cleaner.__call__] on the element [fromstring] returned. That element
    still hangs in the document the parser built around it, so [drop_tree]
    on a root that is a [param] takes the root out of that document and
    raises nothing; the root is then replaced by a [div] like every root
    that cannot stay. A root that is to be deleted with its content is
    cleared and becomes a [div]. *)
Definition clean_document (doc : element) : clean_error + element :=
  match doc with
  | Element tag attrib text children tail =>
      match (if bool_decide (tag = PARAM) then Unwrap else verdict_of false tag) with
      | Kill => inr (Element DIV [] None [] None)
      | Unwrap =>
          let '(text', kids) := clean_children (embeds tag) children (text, []) in
          inr (Element DIV [] text' (rev kids) tail)
      | Keep =>
          let '(text', kids) := clean_children (embeds tag) children (text, []) in
          inr (Element tag (clean_attrib attrib) text' (rev kids) tail)
      end
  end.

(** [page_source.replace(character, ' ')] for the three characters *)
Definition blank_controls (page_source : str) : str :=
  map (fun c => if mem_char c [10; 13; 9]%N then SP else c) page_source.

Definition sterilize_page (page_source : str) : clean_error + str :=
  match html_fromstring (blank_controls page_source) with
  | None => inl ParserRaised
  | Some doc =>
      match clean_document doc with
      | inl e => inl e
      | inr d => inr (join [SP] (split (html_tostring d)))
      end
  end.

End Sterilize.

(** ** The regular expression of URLValidator

    A matcher for the constructs the pattern uses, and the pattern of
    Django 2.0 written with them. [re.IGNORECASE] is in force: a character
    is lowered before it is compared. *)

Module Re.

Inductive re :=
| Eps
| Cls (p : char -> bool)            (** one character of a class *)
| Seq (a b : re)
| Alt (a b : re)
| Star (r : re)
| Rep (r : re) (lo hi : nat)        (** [r{lo,hi}] *)
| NotAhead (c : char)               (** [(?!c)] *)
| NotBehind (c : char)              (** [(?<!c)] *)
| End.                              (** [\Z] *)

(** [run r prev s k]: some match of [r] at the head of [s], the character
    before it being [prev], leaves a rest that [k] accepts. A pass of a
    starred expression that reads nothing is not repeated. *)
Fixpoint run (r : re) (prev : option char) (s : str)
    (k : option char -> str -> bool) : bool :=
  match r with
  | Eps => k prev s
  | Cls p =>
      match s with
      | c :: s' => if p c then k (Some c) s' else false
      | [] => false
      end
  | Seq a b => run a prev s (fun p' s' => run b p' s' k)
  | Alt a b => if run a prev s k then true else run b prev s k
  | Star r0 =>
      (fix star (n : nat) (prev : option char) (s : str) : bool :=
         if k prev s then true
         else
           match n with
           | O => false
           | S n' =>
               run r0 prev s
                 (fun p' s' =>
                    if length s' <? length s then star n' p' s' else false)
           end) (length s) prev s
  | Rep r0 lo hi =>
      (fix rep (lo hi : nat) (prev : option char) (s : str) : bool :=
         if match lo with O => k prev s | S _ => false end then true
         else
           match hi with
           | O => false
           | S hi' => run r0 prev s (fun p' s' => rep (pred lo) hi' p' s')
           end) lo hi prev s
  | NotAhead c => if bool_decide (head s = Some c) then false else k prev s
  | NotBehind c => if bool_decide (prev = Some c) then false else k prev s
  | End =>
      match s with
      | [] => k prev s
      | _ :: _ => false
      end
  end.

Definition Opt (r : re) : re := Alt r Eps.
Definition Plus (r : re) : re := Seq r (Star r).
Definition Chars (s : string) : re :=
  Cls (fun c => mem_char (Ascii7.tolower c) (lit s)).
Fixpoint Lit (s : str) : re :=
  match s with
  | [] => Eps
  | c :: s' => Seq (Cls (fun d => N.eqb (Ascii7.tolower d) c)) (Lit s')
  end.
Fixpoint Seqs (l : list re) : re :=
  match l with
  | [] => Eps
  | r :: l' => Seq r (Seqs l')
  end.

Definition digit : re := Cls Ascii7.isdigit.
Definition nonspace : re := Cls (fun c => negb (Ascii7.isspace c)).

(** [¡-￿] *)
Definition ul (c : char) : bool := Ascii7.between 161 65535 c.
Definition az (c : char) : bool := Ascii7.islower (Ascii7.tolower c).
Definition DASH : char := 45%N.

Definition label_end : re := Cls (fun c => az c || ul c || Ascii7.isdigit c).
Definition label_in : re :=
  Cls (fun c => az c || ul c || Ascii7.isdigit c || N.eqb c DASH).

Definition octet : re :=
  Alt (Seq (Lit (lit "25")) (Chars "012345"))
      (Alt (Seqs [Lit (lit "2"); Chars "01234"; digit])
           (Seqs [Opt (Chars "01"); Opt digit; digit])).
Definition ipv4_re : re := Seq octet (Rep (Seq (Lit (lit ".")) octet) 3 3).
Definition ipv6_re : re :=
  Seqs [Lit (lit "["); Plus (Chars "0123456789abcdef:."); Lit (lit "]")].
Definition hostname_re : re :=
  Seq label_end (Opt (Seq (Rep label_in 0 61) label_end)).
Definition domain_re : re :=
  Star (Seqs [Lit (lit "."); NotAhead DASH; Rep label_in 1 63; NotBehind DASH]).
Definition tld_re : re :=
  Seqs [Lit (lit "."); NotAhead DASH;
        Alt (Rep (Cls (fun c => az c || ul c || N.eqb c DASH)) 2 63)
            (Seq (Lit (lit "xn--")) (Rep (Cls (fun c => az c || Ascii7.isdigit c)) 1 59));
        NotBehind DASH; Opt (Lit (lit "."))].
Definition host_re : re :=
  Alt (Seqs [hostname_re; domain_re; tld_re]) (Lit (lit "localhost")).

Definition url_re : re :=
  Seqs [Star (Cls (fun c => az c || Ascii7.isdigit c || mem_char c (lit ".-+")));
        Lit (lit "://");
        Opt (Seqs [Plus nonspace; Opt (Seq (Lit (lit ":")) (Star nonspace)); Lit (lit "@")]);
        Alt ipv4_re (Alt ipv6_re host_re);
        Opt (Seq (Lit (lit ":")) (Rep digit 2 5));
        Opt (Seq (Chars "/?#") (Star nonspace));
        End].

(** [regex.search(value)] for a pattern anchored at both ends *)
Definition search (r : re) (value : str) : bool :=
  run r None value (fun _ _ => true).

End Re.

(** *** The address check of a host in brackets

    [validate_ipv6_address] of Django 2.0 is [ipaddress.IPv6Address] of
    Python 3.6: at least three parts between colons and at most nine, a
    dotted IPv4 address allowed as the last part, at most one empty part
    inside (the [::]), and every part that counts made of one to four
    hexadecimal digits. *)

Fixpoint split_at (d : char) (cur : str) (s : str) : list str :=
  match s with
  | [] => [rev cur]
  | c :: s' => if N.eqb c d then rev cur :: split_at d [] s' else split_at d (c :: cur) s'
  end.

(** [s.split(d)] *)
Definition split_on (d : char) (s : str) : list str := split_at d [] s.

Definition DOT : char := 46%N.

Definition ishex (c : char) : bool :=
  if Ascii7.isdigit c then true
  else if Ascii7.between 65 70 c then true
  else Ascii7.between 97 102 c.

Definition hextet (p : str) : bool :=
  match p with
  | [] => false
  | _ => if forallb ishex p then length p <=? 4 else false
  end.

Definition decimal (p : str) : N := fold_left (fun a c => (10 * a + (c - 48))%N) p 0%N.

Definition ipv4_octet (p : str) : bool :=
  match p with
  | [] => false
  | c :: _ =>
      if forallb Ascii7.isdigit p then
        if length p <=? 3 then
          if (if N.ltb 7 (decimal p) then N.eqb c 48 else false) then false
          else N.leb (decimal p) 255
        else false
      else false
  end.

Definition ipv4_address (s : str) : bool :=
  let octets := split_on DOT s in
  if length octets =? 4 then forallb ipv4_octet octets else false.

Definition is_empty (p : str) : bool := match p with [] => true | _ => false end.

Definition ipv6_parts (parts : list str) : bool :=
  let n := length parts in
  if 9 <? n then false
  else
    match filter (fun i => nth i parts [SP] = []) (seq 1 (n - 2)) with
    | [] =>
        if n =? 8 then forallb hextet parts else false
    | [skip] =>
        let hi := if is_empty (nth 0 parts [SP]) then skip - 1 else skip in
        let lo := if is_empty (nth (n - 1) parts [SP]) then n - skip - 2
                  else n - skip - 1 in
        if (if is_empty (nth 0 parts [SP]) then negb (hi =? 0) else false) then false
        else if (if is_empty (nth (n - 1) parts [SP]) then negb (lo =? 0) else false)
        then false
        else if 8 <=? hi + lo then false
        else if forallb hextet (take hi parts)
        then forallb hextet (drop (n - lo) parts)
        else false
    | _ => false
    end.

Definition valid_ipv6 (s : str) : bool :=
  match s with
  | [] => false
  | _ =>
      let parts := split_on COLON s in
      if length parts <? 3 then false
      else
        let tail := List.last parts [] in
        if mem_char DOT tail then
          if ipv4_address tail
          then ipv6_parts (removelast parts ++ [lit "0"; lit "0"])
          else false
        else ipv6_parts parts
  end.

(** The group of [re.search(r'^\[(.+)\](?::\d{2,5})?$', netloc)], on a
    network location without white space. *)
Definition bracket_host (netloc : str) : option str :=
  match netloc with
  | c :: rest =>
      if N.eqb c 91 then
        let '(behind, upto) := span (fun c => negb (N.eqb c 93)) (rev rest) in
        match upto with
        | _ :: ip =>
            if (match rev behind with
                | [] => true
                | c' :: port =>
                    if N.eqb c' COLON then
                      if forallb Ascii7.isdigit port then
                        if 2 <=? length port then length port <=? 5 else false
                      else false
                    else false
                end)
            then match ip with [] => None | _ => Some (rev ip) end
            else None
        | [] => None
        end
      else None
  | [] => None
  end.

(** The checks of [URLValidator.__call__] of Django 2.0 behind the scheme
    test, on ASCII text. When the pattern matches, [urlsplit(value)] is
    called outside every [try] and its ValueError leaves the validator as
    it is; then come the address check of a host in brackets and the bound
    of 253 characters on the network location. When the pattern does not
    match, the validator tries again with the host encoded for IDNA: on
    ASCII text that tests the pattern on the same address once more (the
    scheme in lower case, an empty query or fragment without its mark),
    with the same answer, so the call ends in ValidationError. *)
Definition ascii_url_wellformed (value : str) : validation :=
  if Re.search Re.url_re value then
    match urlparse value with
    | inl _ => UrlsplitError
    | inr (_, netloc) =>
        if (match bracket_host netloc with
            | Some ip => negb (valid_ipv6 ip)
            | None => false
            end)
        then ValidationError
        else if 253 <? length netloc then ValidationError
        else Valid
    end
  else ValidationError.

(** [rewrite_links] with [_remove_javascript_link] on a link without
    percent escapes: the link is stripped; it is dropped when, white space
    and control characters aside, it holds one of the scripting schemes. *)
Definition strip (s : str) : str :=
  let s' := snd (span Ascii7.isspace s) in
  rev (snd (span Ascii7.isspace (rev s'))).

Definition script_schemes : list str :=
  map lit ["javascript:"; "jscript:"; "livescript:"; "vbscript:"; "data:";
           "about:"; "mocha:"]%string.

Fixpoint holds_any (needles : list str) (s : str) : bool :=
  match s with
  | [] => false
  | _ :: s' =>
      if existsb (fun n => startswith n s) needles then true
      else holds_any needles s'
  end.

Definition ascii_rewrite_link (link : str) : str :=
  let bare :=
    filter (fun c => negb (Ascii7.isspace c || N.ltb c 26)) (Ascii7.str_lower link) in
  if holds_any script_schemes bare then [] else strip link.

Lemma first_seen_perm (l : list str) : Ascii7.first_seen l ≡ₚ remove_dups l.
Proof.
  unfold Ascii7.first_seen. rewrite reverse_Permutation.
  apply NoDup_Permutation; try apply NoDup_remove_dups.
  intros x. rewrite !elem_of_remove_dups, elem_of_reverse. reflexivity.
Qed.

Lemma last_seen_perm (l : list str) :
  reverse (Ascii7.first_seen l) ≡ₚ remove_dups l.
Proof. rewrite reverse_Permutation. apply first_seen_perm. Qed.

(** The interpreter on ASCII text with a given order of set iteration.
    Its parsers are the XML reader above, which builds the tree the HTML
    parser builds for a fragment in one element that is lower case, well
    nested and in no need of repair; its writers are the HTML writer
    above. *)
Definition ascii_interp (order : list str -> list str)
    (Hperm : forall l, order l ≡ₚ remove_dups l) : Interp :=
  {| isalpha := Ascii7.isalpha;
     isspace := Ascii7.isspace;
     isword := Ascii7.isword;
     str_lower := Ascii7.str_lower;
     set_iter := order;
     url_wellformed := ascii_url_wellformed;
     html_fromstring := read_document;
     rewrite_link := ascii_rewrite_link;
     html_tostring := write_element;
     fromstring := fun text => match read_document text with
                               | Some doc => Root doc
                               | None => NotWellFormed
                               end;
     tostring := write_element;
     unescape := ascii_unescape;
     isspace_SP := eq_refl;
     set_iter_perm := Hperm |}.

(** The words of a set come out in the order they went in. *)
Definition ascii_in_order : Interp := ascii_interp Ascii7.first_seen first_seen_perm.

(** The words of a set come out in the opposite order. *)
Definition ascii_reversed : Interp :=
  ascii_interp (fun l => reverse (Ascii7.first_seen l)) last_seen_perm.

(** * Properties *)

(** ** absolutize_url *)

Lemma startswith_slash (s : str) :
  startswith [SLASH] s = true <-> exists p, s = SLASH :: p.
Proof.
  split.
  - destruct s as [|c s']; cbn [startswith]; [discriminate|].
    rewrite andb_true_r. intros E%N.eqb_eq. subst c. eauto.
  - intros [p ->]. reflexivity.
Qed.

Lemma endswith_slash (s : str) :
  endswith [SLASH] s = true <-> exists r, s = r ++ [SLASH].
Proof.
  unfold endswith. change (rev [SLASH]) with [SLASH].
  rewrite startswith_slash. split.
  - intros [p E]. exists (rev p).
    rewrite <- (rev_involutive s), E. reflexivity.
  - intros [r ->]. exists (rev r). rewrite rev_app_distr. reflexivity.
Qed.

Definition ends_with_slash (s : str) : Prop := exists r, s = r ++ [SLASH].
Definition starts_with_slash (s : str) : Prop := exists p, s = SLASH :: p.

Lemma endswith_false (s : str) :
  ~ ends_with_slash s -> endswith [SLASH] s = false.
Proof.
  intros Hn. destruct (endswith [SLASH] s) eqn:E; [|reflexivity].
  apply endswith_slash in E. contradiction.
Qed.

Lemma startswith_false (s : str) :
  ~ starts_with_slash s -> startswith [SLASH] s = false.
Proof.
  intros Hn. destruct (startswith [SLASH] s) eqn:E; [|reflexivity].
  apply startswith_slash in E. contradiction.
Qed.

(** C6. When exactly one of "the address ends with a slash" and "the path
    starts with a slash" holds, [absolutize_url] is the concatenation; when
    both hold, the path loses its leading slash first; when neither holds
    the call returns [None] and raises nothing. The three cases of
    [test_absolutize_url] come out as the test expects. *)
Theorem absolutize_url_cases :
  (forall address path,
     ends_with_slash address -> ~ starts_with_slash path ->
     absolutize_url address path = Some (address ++ path)) /\
  (forall address path,
     ~ ends_with_slash address -> starts_with_slash path ->
     absolutize_url address path = Some (address ++ path)) /\
  (forall address path,
     ends_with_slash address -> starts_with_slash path ->
     absolutize_url address path = Some (address ++ drop 1 path)) /\
  (forall address path,
     ~ ends_with_slash address -> ~ starts_with_slash path ->
     absolutize_url address path = None) /\
  absolutize_url (lit "https://google.com/") (lit "chrome/browser/desktop/index.html")
    = Some (lit "https://google.com/chrome/browser/desktop/index.html") /\
  absolutize_url (lit "https://github.com") (lit "/Spacehug")
    = Some (lit "https://github.com/Spacehug") /\
  absolutize_url (lit "https://vk.com/") (lit "/id1")
    = Some (lit "https://vk.com/id1").
Proof.
  repeat split; try reflexivity; intros address path Ha Hp; unfold absolutize_url.
  - apply endswith_slash in Ha. apply startswith_false in Hp.
    rewrite Ha, Hp. reflexivity.
  - apply endswith_false in Ha. apply startswith_slash in Hp.
    rewrite Ha, Hp. reflexivity.
  - apply endswith_slash in Ha. apply startswith_slash in Hp.
    rewrite Ha, Hp. reflexivity.
  - apply endswith_false in Ha. apply startswith_false in Hp.
    rewrite Ha, Hp. reflexivity.
Qed.

Lemma absolutize_url_cases_witness :
  absolutize_url (lit "https://github.com") (lit "/Spacehug")
    = Some (lit "https://github.com" ++ lit "/Spacehug")
  /\ absolutize_url (lit "https://vk.com/") (lit "/id1")
    = Some (lit "https://vk.com/" ++ drop 1 (lit "/id1"))
  /\ absolutize_url (lit "https://vk.com") (lit "id1") = None.
Proof.
  destruct absolutize_url_cases as (_ & H2 & H3 & H4 & _).
  split; [|split].
  - apply H2.
    + intros [r E]. apply (f_equal (@rev char)) in E.
      rewrite rev_app_distr in E. discriminate E.
    + exists (lit "Spacehug"). reflexivity.
  - apply H3.
    + exists (lit "https://vk.com"). reflexivity.
    + exists (lit "id1"). reflexivity.
  - apply H4.
    + intros [r E]. apply (f_equal (@rev char)) in E.
      rewrite rev_app_distr in E. discriminate E.
    + intros [p E]. discriminate E.
Defined.

(** ** reinforce_text: white space *)

Section ReinforceFacts.
Context `{Interp}.

(** No two neighbours in [s] are both white space. *)
Fixpoint no_ws_run (s : str) : bool :=
  match s with
  | [] => true
  | c :: s' =>
      match s' with
      | [] => true
      | d :: _ => negb (isspace c && isspace d)
      end && no_ws_run s'
  end.

Definition spaceless (w : str) : Prop := Forall (fun c => isspace c = false) w.

Lemma split_from_spaceless (s cur : str) :
  spaceless cur ->
  Forall (fun w => w <> [] /\ spaceless w) (split_from cur s).
Proof.
  revert cur. induction s as [|c s IH]; intros cur Hcur; cbn [split_from].
  - destruct cur; [constructor|]. constructor; [|constructor].
    split; [discriminate|assumption].
  - destruct (isspace c) eqn:Ec.
    + destruct cur as [|c0 cur'].
      * apply IH. constructor.
      * constructor; [split; [discriminate|assumption]|].
        apply IH. constructor.
    + apply IH. apply Forall_app. split; [assumption|].
      constructor; [assumption|constructor].
Qed.

Lemma no_ws_run_app (w r : str) :
  spaceless w -> no_ws_run (w ++ r) = no_ws_run r.
Proof.
  induction 1 as [|c w Hc Hw IH]; [reflexivity|].
  cbn [app no_ws_run]. rewrite IH, Hc.
  destruct (w ++ r); reflexivity.
Qed.

Lemma no_ws_run_join (ws : list str) :
  Forall (fun w => w <> [] /\ spaceless w) ws ->
  no_ws_run (join [SP] ws ++ [SP]) = true.
Proof.
  induction 1 as [|w ws [Hne Hw] Hws IH]; [reflexivity|].
  destruct ws as [|w2 ws'].
  - cbn [join]. rewrite no_ws_run_app by assumption. reflexivity.
  - change (join [SP] (w :: w2 :: ws')) with (w ++ [SP] ++ join [SP] (w2 :: ws')).
    rewrite <- !app_assoc. rewrite no_ws_run_app by assumption.
    change ([SP] ++ ?r) with (SP :: r).
    cbn [no_ws_run]. rewrite IH, andb_true_r.
    inversion Hws as [|? ? [Hne2 Hw2] _]; subst.
    destruct w2 as [|d w2']; [congruence|].
    inversion Hw2 as [|? ? Hd _]; subst.
    assert (E : exists r, join [SP] ((d :: w2') :: ws') ++ [SP] = d :: r).
    { destruct ws'; cbn [join]; eexists; reflexivity. }
    destruct E as [r ->]. rewrite Hd, andb_false_r. reflexivity.
Qed.

Lemma no_ws_run_last (b : str) (d : char) :
  no_ws_run (b ++ [d]) = true -> isspace d = true ->
  forall c, list.last b = Some c -> isspace c = false.
Proof.
  intros Hrun Hd c. induction b as [|x b IH]; [discriminate|].
  cbn [app no_ws_run] in Hrun. apply andb_true_iff in Hrun as [Hx Hrest].
  destruct b as [|y b'].
  - cbn. intros [= ->]. cbn in Hx. rewrite Hd, andb_true_r in Hx.
    destruct (isspace c); [discriminate|reflexivity].
  - intros Hl. apply IH; assumption.
Qed.

Lemma reinforce_in_whitespace (order : list str) (text : str) :
  exists body,
    reinforce_in order text = body ++ [SP]
    /\ no_ws_run (body ++ [SP]) = true
    /\ forall c, list.last body = Some c -> isspace c = false.
Proof.
  unfold reinforce_in. eexists. split; [reflexivity|].
  assert (Hrun : no_ws_run (join [SP] (split (foldl reinforce_step text order)) ++ [SP]) = true).
  { apply no_ws_run_join, split_from_spaceless. constructor. }
  split; [exact Hrun|].
  apply (no_ws_run_last _ SP Hrun isspace_SP).
Qed.

(** C8. For every text, [reinforce_text] ends with one space that no white
    space precedes, and nowhere in the result do two white-space characters
    stand side by side. *)
Theorem reinforce_text_whitespace (text : str) :
  exists body,
    reinforce_text text = body ++ [SP]
    /\ no_ws_run (body ++ [SP]) = true
    /\ forall c, list.last body = Some c -> isspace c = false.
Proof. apply reinforce_in_whitespace. Qed.

End ReinforceFacts.

(** ** reinforce_text: the order of the words *)

Definition STRONG_HELLO : str := lit "strong hello".

(** C2, on the text [strong hello] when the set yields [hello] before
    [strong]: the loop first wraps [hello], then finds the word [strong]
    three times in the text it has just written, once where the text had
    it and twice inside the tags around [hello], and wraps all three, where
    one wrapped word [strong] and untouched tags around [hello] were due. *)
Theorem reinforce_text_wraps_inserted_tags :
  @words ascii_reversed STRONG_HELLO = [lit "strong"; lit "hello"]
  /\ @set_iter ascii_reversed (@words ascii_reversed STRONG_HELLO)
     = [lit "hello"; lit "strong"]
  /\ @re_sub_word ascii_reversed (lit "hello") STRONG_HELLO
     = lit "strong <strong>hello</strong>"
  /\ @re_sub_word ascii_reversed (lit "strong") (lit "strong <strong>hello</strong>")
     = lit "<strong>strong</strong> <<strong>strong</strong>>hello</<strong>strong</strong>>"
  /\ @reinforce_text ascii_reversed STRONG_HELLO
     = lit "<strong>strong</strong> <<strong>strong</strong>>hello</<strong>strong</strong>> ".
Proof. repeat split; vm_compute; reflexivity. Qed.

(** C9, on the same text: the two orders in which a set of two words can
    be iterated give two different results, for [reinforce_text] and for
    [process_page] on a page with that text. *)
Theorem reinforce_text_depends_on_set_order :
  @reinforce_text ascii_in_order STRONG_HELLO
    = lit "<strong>strong</strong> <strong>hello</strong> "
  /\ @reinforce_text ascii_in_order STRONG_HELLO <> @reinforce_text ascii_reversed STRONG_HELLO
  /\ @process_page ascii_in_order (lit "<div>strong hello</div>") (lit "https://google.com/")
     <> @process_page ascii_reversed (lit "<div>strong hello</div>") (lit "https://google.com/").
Proof.
  split; [vm_compute; reflexivity|].
  split; intros E; vm_compute in E; discriminate E.
Qed.

(** ** The store operations *)

Lemma bind_inr {A B} (m : M A) (k : A -> M B) (s s' : store) (a : A) :
  m s = inr (a, s') -> bind m k s = k a s'.
Proof. unfold bind. intros ->. reflexivity. Qed.

Lemma bind_inl {A B} (m : M A) (k : A -> M B) (s : store) (e : exn) :
  m s = inl e -> bind m k s = inl e.
Proof. unfold bind. intros ->. reflexivity. Qed.

Lemma bind_assoc {A B C} (m : M A) (f : A -> M B) (g : B -> M C) (s : store) :
  bind (bind m f) g s = bind m (fun x => bind (f x) g) s.
Proof. unfold bind. destruct (m s) as [e|[a s']]; reflexivity. Qed.

Lemma get_node_Some (s : store) (i : nat) (n : node) :
  s !! i = Some n -> get_node i s = inr (n, s).
Proof. unfold get_node. intros ->. reflexivity. Qed.

Lemma modify_Some (s : store) (i : nat) (n : node) (f : node -> node) :
  s !! i = Some n -> modify i f s = inr (tt, <[i := f n]> s).
Proof.
  intros Hi. unfold modify. rewrite (bind_inr _ _ _ _ _ (get_node_Some _ _ _ Hi)).
  reflexivity.
Qed.

Lemma attrib_getitem_Some (s : store) (i : nat) (n : node) (key v : str) :
  s !! i = Some n -> attr_get key (el_attrib n) = Some v ->
  attrib_getitem i key s = inr (v, s).
Proof.
  intros Hi Hv. unfold attrib_getitem.
  rewrite (bind_inr _ _ _ _ _ (get_node_Some _ _ _ Hi)), Hv. reflexivity.
Qed.

Lemma attrib_getitem_None (s : store) (i : nat) (n : node) (key : str) :
  s !! i = Some n -> attr_get key (el_attrib n) = None ->
  attrib_getitem i key s = inl KeyError.
Proof.
  intros Hi Hv. unfold attrib_getitem.
  rewrite (bind_inr _ _ _ _ _ (get_node_Some _ _ _ Hi)), Hv. reflexivity.
Qed.

(** ** schemeful_domain and absolutize_url together *)

Definition strip_slash (path : str) : str :=
  if startswith [SLASH] path then drop 1 path else path.

Lemma schemeful_domain_slash (target_url root : str) :
  schemeful_domain target_url = inr root -> endswith [SLASH] root = true.
Proof.
  unfold schemeful_domain.
  destruct (urlparse target_url) as [e|[scheme netloc]]; [discriminate|].
  intros [= <-]. apply endswith_slash.
  exists (scheme ++ lit "://" ++ netloc). rewrite <- !app_assoc. reflexivity.
Qed.

Lemma absolutize_from_root (root path : str) :
  endswith [SLASH] root = true ->
  absolutize_url root path = Some (root ++ strip_slash path).
Proof.
  intros Hr. unfold absolutize_url, strip_slash. rewrite Hr.
  destruct (startswith [SLASH] path); reflexivity.
Qed.

(** ** process_page: one pass of the anchor loop *)

Section ProcessFacts.
Context `{Interp}.

(** The attributes an anchor leaves the [try] block with when the block
    ends well, for the root [schemeful_domain] returns. *)
Definition fixed_attrib (root : str) (attrib : list (str * str)) : list (str * str) :=
  match attr_get HREF attrib with
  | Some href =>
      match URLValidator default_schemes href with
      | ValidationError =>
          match absolutize_url root href with
          | Some url => attr_set HREF url attrib
          | None => attrib
          end
      | _ => attrib
      end
  | None => attrib
  end.

Lemma schemeful_domain_error (target_url : str) (e : exn) :
  schemeful_domain target_url = inl e -> e = ValueError.
Proof.
  unfold schemeful_domain, urlparse.
  destruct (split_scheme target_url) as [scheme rest].
  destruct (startswith (lit "//") rest); [|discriminate].
  destruct (xorb _ _); [|discriminate].
  intros [= <-]. reflexivity.
Qed.

Lemma href_raises_root (target_url root href : str) :
  schemeful_domain target_url = inr root ->
  href_raises target_url href
  = match URLValidator default_schemes href with
    | Valid => false
    | UrlsplitError => true
    | ValidationError => negb (xml_compatible (root ++ strip_slash href))
    end.
Proof.
  intros Hroot. unfold href_raises.
  rewrite Hroot, (absolutize_from_root _ _ (schemeful_domain_slash _ _ Hroot)).
  reflexivity.
Qed.

Lemma fix_href_run (target_url root : str) (s : store) (a : nat) (n : node) (href : str) :
  s !! a = Some n ->
  attr_get HREF (el_attrib n) = Some href ->
  schemeful_domain target_url = inr root ->
  fix_href target_url a s
  = if href_raises target_url href then inl ValueError
    else inr (tt, <[a := with_attrib (fixed_attrib root (el_attrib n)) n]> s).
Proof.
  intros Ha Hh Hroot. rewrite (href_raises_root _ _ _ Hroot).
  unfold fix_href, fixed_attrib.
  rewrite (bind_inr _ _ _ _ _ (attrib_getitem_Some _ _ _ _ _ Ha Hh)).
  rewrite Hh.
  destruct (URLValidator default_schemes href).
  - unfold ret. do 2 f_equal. symmetry. apply list_insert_id.
    rewrite Ha. destruct n. reflexivity.
  - rewrite Hroot.
    rewrite (bind_inr _ _ _ _ _ (attrib_getitem_Some _ _ _ _ _ Ha Hh)).
    rewrite (absolutize_from_root _ _ (schemeful_domain_slash _ _ Hroot)).
    unfold attrib_setitem.
    destruct (xml_compatible (root ++ strip_slash href)); cbn [negb];
      [|reflexivity].
    rewrite (modify_Some _ _ _ _ Ha). reflexivity.
  - reflexivity.
Qed.

Lemma fix_href_ValueError (target_url : str) (s : store) (a : nat) (n : node) (href : str) :
  s !! a = Some n ->
  attr_get HREF (el_attrib n) = Some href ->
  href_raises target_url href = true ->
  fix_href target_url a s = inl ValueError.
Proof.
  intros Ha Hh Hv. unfold fix_href.
  rewrite (bind_inr _ _ _ _ _ (attrib_getitem_Some _ _ _ _ _ Ha Hh)).
  unfold href_raises in Hv.
  destruct (URLValidator default_schemes href); [discriminate| |reflexivity].
  destruct (schemeful_domain target_url) as [e|root] eqn:Hroot.
  - rewrite (schemeful_domain_error _ _ Hroot). reflexivity.
  - rewrite (bind_inr _ _ _ _ _ (attrib_getitem_Some _ _ _ _ _ Ha Hh)).
    destruct (absolutize_url root href) as [url|]; [|discriminate].
    unfold attrib_setitem. destruct (xml_compatible url); [discriminate|reflexivity].
Qed.

Lemma fix_href_KeyError (target_url : str) (s : store) (a : nat) (n : node) :
  s !! a = Some n ->
  attr_get HREF (el_attrib n) = None ->
  fix_href target_url a s = inl KeyError.
Proof.
  intros Ha Hh. unfold fix_href.
  apply bind_inl. eapply attrib_getitem_None; eassumption.
Qed.

(** The store after the first four statements of the [if] branch: the new
    [em] node holds the text, the anchor has it as its first child. *)
Definition wrapped (s : store) (a : nat) (n : node) : store :=
  <[length s := Node EM [] (el_text n) None [] (Some a)]>
    (<[a := with_children (length s :: el_children n) (with_text None n)]>
       (s ++ [Node EM [] None None [] None])).

Lemma wrap_run (s : store) (a : nat) (n : node) (k : M unit) :
  s !! a = Some n ->
  (do em <- new_element EM;
   modify em (with_text (el_text n)) ;;
   modify a (with_text None) ;;
   insert0 a em ;;
   k) s = k (wrapped s a n).
Proof.
  intros Ha.
  assert (Hlt : a < length s) by (eapply lookup_lt_Some; eassumption).
  assert (Hne : a <> length s) by lia.
  set (em := length s).
  set (s1 := s ++ [Node EM [] None None [] None]).
  assert (H1 : s1 !! em = Some (Node EM [] None None [] None)).
  { unfold s1, em. rewrite lookup_app_r by lia. rewrite Nat.sub_diag. reflexivity. }
  assert (Hem1 : em < length s1).
  { unfold s1, em. rewrite length_app. simpl. lia. }
  assert (Ha1 : s1 !! a = Some n).
  { unfold s1. rewrite lookup_app_l by assumption. assumption. }
  unfold bind at 1. unfold new_element at 1. fold em. fold s1.
  rewrite (bind_inr _ _ _ _ _ (modify_Some _ _ _ _ H1)).
  match goal with |- _ ?st = _ => set (s2 := st) end.
  assert (Ha2 : s2 !! a = Some n).
  { unfold s2. rewrite list_lookup_insert_ne by lia. assumption. }
  rewrite (bind_inr _ _ _ _ _ (modify_Some _ _ _ _ Ha2)).
  match goal with |- _ ?st = _ => set (s3 := st) end.
  assert (Hem3 : s3 !! em = Some (Node EM [] (el_text n) None [] None)).
  { unfold s3. rewrite list_lookup_insert_ne by lia.
    unfold s2. rewrite list_lookup_insert_eq by assumption. reflexivity. }
  assert (Ha3 : s3 !! a = Some (with_text None n)).
  { unfold s3. rewrite list_lookup_insert_eq; [reflexivity|].
    unfold s2. rewrite length_insert. unfold s1. rewrite length_app. lia. }
  unfold insert0.
  rewrite bind_assoc.
  rewrite (bind_inr _ _ _ _ _ (get_node_Some _ _ _ Hem3)).
  cbn [el_parent]. rewrite bind_assoc. unfold ret at 1. unfold bind at 1.
  rewrite bind_assoc.
  rewrite (bind_inr _ _ _ _ _ (modify_Some _ _ _ _ Ha3)).
  match goal with |- _ ?st = _ => set (s4 := st) end.
  assert (Hem4 : s4 !! em = Some (Node EM [] (el_text n) None [] None)).
  { unfold s4. rewrite list_lookup_insert_ne by lia. assumption. }
  rewrite (bind_inr _ _ _ _ _ (modify_Some _ _ _ _ Hem4)).
  f_equal. unfold wrapped. fold em. fold s1. unfold s4, s3, s2.
  cbn [with_parent el_tag el_attrib el_text el_tail el_children].
  rewrite (list_insert_insert_eq _ a).
  rewrite (list_insert_insert_ne _ a em) by lia.
  rewrite (list_insert_insert_eq _ em).
  reflexivity.
Qed.

Lemma wrapped_lookup_em (s : store) (a : nat) (n : node) :
  s !! a = Some n ->
  wrapped s a n !! length s = Some (Node EM [] (el_text n) None [] (Some a)).
Proof.
  intros Ha. unfold wrapped.
  rewrite list_lookup_insert_eq; [reflexivity|].
  rewrite length_insert, length_app. simpl. lia.
Qed.

Lemma wrapped_lookup_a (s : store) (a : nat) (n : node) :
  s !! a = Some n ->
  wrapped s a n !! a
  = Some (with_children (length s :: el_children n) (with_text None n)).
Proof.
  intros Ha.
  assert (Hlt : a < length s) by (eapply lookup_lt_Some; eassumption).
  unfold wrapped. rewrite list_lookup_insert_ne by lia.
  rewrite list_lookup_insert_eq; [reflexivity|].
  rewrite length_app. lia.
Qed.

Lemma wrapped_lookup_other (s : store) (a : nat) (n : node) (i : nat) :
  i <> a -> i < length s -> wrapped s a n !! i = s !! i.
Proof.
  intros Hne Hlt. unfold wrapped.
  rewrite !list_lookup_insert_ne by lia.
  apply lookup_app_l. assumption.
Qed.

Lemma wrapped_length (s : store) (a : nat) (n : node) :
  length (wrapped s a n) = S (length s).
Proof. unfold wrapped. rewrite !length_insert, length_app. simpl. lia. Qed.

Lemma anchor_body_text (target_url : str) (s : store) (a : nat) (n : node) :
  s !! a = Some n -> has_text (el_text n) = true ->
  anchor_body target_url a s = fix_href target_url a (wrapped s a n).
Proof.
  intros Ha Ht. unfold anchor_body.
  rewrite (bind_inr _ _ _ _ _ (get_node_Some _ _ _ Ha)), Ht.
  apply wrap_run. assumption.
Qed.

(** *** What a pass leaves alone *)

Lemma bind_inr_inv {A B} (m : M A) (k : A -> M B) (s : store) (r : B * store) :
  bind m k s = inr r -> exists a s1, m s = inr (a, s1) /\ k a s1 = inr r.
Proof.
  unfold bind. destruct (m s) as [e|[a s1]]; [discriminate|]. eauto.
Qed.

Lemma get_node_inv (i : nat) (s s1 : store) (n : node) :
  get_node i s = inr (n, s1) -> s !! i = Some n /\ s1 = s.
Proof.
  unfold get_node. destruct (s !! i); [|discriminate].
  intros [= -> ->]. auto.
Qed.

Lemma modify_inv (i : nat) (f : node -> node) (s s1 : store) (u : unit) :
  modify i f s = inr (u, s1) ->
  exists n, s !! i = Some n /\ s1 = <[i := f n]> s.
Proof.
  unfold modify. intros (n & s0 & Hg & Hp)%bind_inr_inv.
  apply get_node_inv in Hg as [Hi ->].
  unfold put_node in Hp. injection Hp as _ <-. eauto.
Qed.

(** Two nodes agree on every slot but the child list. *)
Definition same_slots (n n' : node) : Prop :=
  el_tag n' = el_tag n /\ el_attrib n' = el_attrib n /\ el_text n' = el_text n
  /\ el_tail n' = el_tail n /\ el_parent n' = el_parent n.

Lemma same_slots_refl (n : node) : same_slots n n.
Proof. repeat split. Qed.

Lemma fix_href_frame (target_url : str) (a : nat) (s s' : store) :
  fix_href target_url a s = inr (tt, s') ->
  forall c, c <> a -> s' !! c = s !! c.
Proof.
  unfold fix_href. intros (href & s1 & Hg & Hk)%bind_inr_inv c Hc.
  unfold attrib_getitem in Hg.
  apply bind_inr_inv in Hg as (n & s0 & [Hn ->]%get_node_inv & Hg).
  destruct (attr_get HREF (el_attrib n)); [|discriminate].
  injection Hg as -> ->.
  destruct (URLValidator default_schemes href); [| |discriminate].
  { injection Hk as ->. reflexivity. }
  destruct (schemeful_domain target_url) as [e|root]; [discriminate|].
  apply bind_inr_inv in Hk as (href' & s2 & Hg' & Hk).
  unfold attrib_getitem in Hg'.
  apply bind_inr_inv in Hg' as (n' & s3 & [Hn' ->]%get_node_inv & Hg').
  destruct (attr_get HREF (el_attrib n')); [|discriminate].
  injection Hg' as -> ->.
  unfold attrib_setitem in Hk.
  destruct (absolutize_url root href') as [url|]; [|discriminate].
  destruct (xml_compatible url); [|discriminate].
  apply modify_inv in Hk as (n2 & _ & ->).
  apply list_lookup_insert_ne. congruence.
Qed.

Lemma remove_from_parent_frame (b : nat) (s s' : store) :
  remove_from_parent b s = inr (tt, s') ->
  forall c n, c <> b -> s !! c = Some n ->
  exists n', s' !! c = Some n' /\ same_slots n n'.
Proof.
  unfold remove_from_parent.
  intros (nb & s0 & [Hb ->]%get_node_inv & Hk)%bind_inr_inv c n Hc Hn.
  destruct (el_parent nb) as [p|]; [|discriminate].
  unfold remove in Hk.
  apply bind_inr_inv in Hk as (cn & s1 & [_ ->]%get_node_inv & Hk).
  destruct (bool_decide (el_parent cn = Some p)); [|discriminate].
  apply bind_inr_inv in Hk as (u & s1 & (pn & Hp & ->)%modify_inv & Hk).
  apply modify_inv in Hk as (nb1 & _ & ->).
  rewrite list_lookup_insert_ne by congruence.
  destruct (decide (p = c)) as [->|Hpc].
  - rewrite list_lookup_insert_eq by (eapply lookup_lt_Some; eassumption).
    eexists. split; [reflexivity|].
    assert (pn = n) as -> by congruence. repeat split.
  - rewrite list_lookup_insert_ne by assumption.
    eexists. split; [eassumption|apply same_slots_refl].
Qed.

Lemma anchor_body_frame (target_url : str) (b : nat) (s s' : store) :
  anchor_body target_url b s = inr (tt, s') ->
  forall c n, c <> b -> s !! c = Some n ->
  exists n', s' !! c = Some n' /\ same_slots n n'.
Proof.
  intros Hrun c n Hc Hn.
  pose proof Hrun as Hrun'. unfold anchor_body in Hrun'.
  apply bind_inr_inv in Hrun' as (nb & s0 & [Hb ->]%get_node_inv & Hk).
  destruct (has_text (el_text nb)) eqn:Ht.
  - rewrite (anchor_body_text _ _ _ _ Hb Ht) in Hrun.
    exists n. split; [|apply same_slots_refl].
    rewrite (fix_href_frame _ _ _ _ Hrun c Hc).
    rewrite wrapped_lookup_other; [assumption..|].
    eapply lookup_lt_Some; eassumption.
  - eapply remove_from_parent_frame; eassumption.
Qed.

(** An anchor with text and no href stops the pass at the href lookup. *)
Lemma anchor_body_KeyError (target_url : str) (s : store) (a : nat) (n : node) :
  s !! a = Some n -> has_text (el_text n) = true ->
  attr_get HREF (el_attrib n) = None ->
  anchor_body target_url a s = inl KeyError.
Proof.
  intros Ha Ht Hh. rewrite (anchor_body_text _ _ _ _ Ha Ht).
  eapply fix_href_KeyError; [apply wrapped_lookup_a; assumption|].
  assumption.
Qed.

(** *** The pass on an anchor without text *)

(** The store after [a_tag.getparent().remove(a_tag)]. *)
Definition unlinked (s : store) (a p : nat) (n pn : node) : store :=
  <[a := with_parent None n]>
    (<[p := with_children (remove_id a (el_children pn)) pn]> s).

Lemma anchor_body_blank (target_url : str) (s : store) (a p : nat) (n pn : node) :
  s !! a = Some n -> has_text (el_text n) = false ->
  el_parent n = Some p -> p <> a -> s !! p = Some pn ->
  anchor_body target_url a s = inr (tt, unlinked s a p n pn).
Proof.
  intros Ha Ht Hp Hne Hpn. unfold anchor_body.
  rewrite (bind_inr _ _ _ _ _ (get_node_Some _ _ _ Ha)), Ht.
  unfold remove_from_parent.
  rewrite (bind_inr _ _ _ _ _ (get_node_Some _ _ _ Ha)), Hp.
  unfold remove.
  rewrite (bind_inr _ _ _ _ _ (get_node_Some _ _ _ Ha)), Hp.
  rewrite bool_decide_true by reflexivity.
  rewrite (bind_inr _ _ _ _ _ (modify_Some _ _ _ _ Hpn)).
  apply modify_Some. rewrite list_lookup_insert_ne by assumption. assumption.
Qed.

Lemma unlinked_slots (s : store) (a p : nat) (n pn : node) (i : nat) :
  s !! a = Some n -> s !! p = Some pn ->
  el_text <$> unlinked s a p n pn !! i = el_text <$> s !! i
  /\ el_tail <$> unlinked s a p n pn !! i = el_tail <$> s !! i.
Proof.
  intros Ha Hp. unfold unlinked.
  assert (Hla : a < length s) by (eapply lookup_lt_Some; eassumption).
  assert (Hlp : p < length s) by (eapply lookup_lt_Some; eassumption).
  destruct (decide (i = a)) as [->|Hia].
  - rewrite list_lookup_insert_eq by (rewrite length_insert; assumption).
    rewrite Ha. split; reflexivity.
  - rewrite list_lookup_insert_ne by congruence.
    destruct (decide (i = p)) as [->|Hip].
    + rewrite list_lookup_insert_eq by assumption.
      rewrite Hp. split; reflexivity.
    + rewrite list_lookup_insert_ne by congruence. split; reflexivity.
Qed.

Lemma remove_id_not_elem (a : nat) (l : list nat) : a ∉ remove_id a l.
Proof.
  unfold remove_id. intros Hin%list_elem_of_filter. destruct Hin as [Hne _].
  congruence.
Qed.

(** *** The pass of the second loop on one element *)

Lemma element_body_run (s : store) (e : nat) (n : node) :
  s !! e = Some n ->
  element_body e s
  = inr (tt, <[e := Node (el_tag n) (el_attrib n) (reinforce_slot (el_text n))
                       (reinforce_slot (el_tail n)) (el_children n) (el_parent n)]> s).
Proof.
  intros He. unfold element_body.
  rewrite (bind_inr _ _ _ _ _ (modify_Some _ _ _ _ He)).
  assert (Hlt : e < length s) by (eapply lookup_lt_Some; eassumption).
  erewrite modify_Some by (apply list_lookup_insert_eq; assumption).
  rewrite list_insert_insert_eq. reflexivity.
Qed.


Lemma URLValidator_Valid (schemes : list str) (value : str) :
  URLValidator schemes value = Valid
  <-> str_lower (before_sep (lit "://") value) ∈ schemes
      /\ url_wellformed value = Valid.
Proof.
  unfold URLValidator. case_bool_decide as Hs.
  - tauto.
  - split; [discriminate|]. intros [? _]. contradiction.
Qed.


(** The anchor pass on an anchor that has text and an href on which the
    [try] block ends well. *)
Lemma anchor_body_href (target_url root : str) (s : store) (a : nat) (n : node) (href : str) :
  s !! a = Some n -> has_text (el_text n) = true ->
  attr_get HREF (el_attrib n) = Some href ->
  schemeful_domain target_url = inr root ->
  href_raises target_url href = false ->
  exists s',
    anchor_body target_url a s = inr (tt, s')
    /\ s' !! length s = Some (Node EM [] (el_text n) None [] (Some a))
    /\ s' !! a
       = Some (Node (el_tag n) (fixed_attrib root (el_attrib n))
                 None (el_tail n) (length s :: el_children n) (el_parent n))
    /\ forall i, i <> a -> i < length s -> s' !! i = s !! i.
Proof.
  intros Ha Ht Hh Hroot Hv.
  assert (Hlt : a < length s) by (eapply lookup_lt_Some; eassumption).
  rewrite (anchor_body_text _ _ _ _ Ha Ht).
  rewrite (fix_href_run _ _ _ _ _ _ (wrapped_lookup_a _ _ _ Ha) Hh Hroot), Hv.
  change (with_attrib
            (fixed_attrib root
               (el_attrib (with_children (length s :: el_children n)
                             (with_text None n))))
            (with_children (length s :: el_children n) (with_text None n)))
    with (Node (el_tag n) (fixed_attrib root (el_attrib n))
            None (el_tail n) (length s :: el_children n) (el_parent n)).
  eexists. split; [reflexivity|].
  split.
  { rewrite list_lookup_insert_ne by lia. apply wrapped_lookup_em; assumption. }
  split.
  { rewrite list_lookup_insert_eq; [reflexivity|].
    rewrite wrapped_length. lia. }
  intros i Hi Hil. rewrite list_lookup_insert_ne by congruence.
  apply wrapped_lookup_other; assumption.
Qed.

(** An href on which the [try] block raises ValueError ends the pass with
    that exception. *)
Lemma anchor_body_ValueError (target_url : str) (s : store) (a : nat) (n : node) (href : str) :
  s !! a = Some n -> has_text (el_text n) = true ->
  attr_get HREF (el_attrib n) = Some href ->
  href_raises target_url href = true ->
  anchor_body target_url a s = inl ValueError.
Proof.
  intros Ha Ht Hh Hv. rewrite (anchor_body_text _ _ _ _ Ha Ht).
  eapply fix_href_ValueError; [apply wrapped_lookup_a; assumption|exact Hh|exact Hv].
Qed.

End ProcessFacts.

(** Induction on documents, the children of an element included. *)
Lemma element_rect_children (P : element -> Prop)
    (step : forall tag attrib text children tail,
        Forall P children -> P (Element tag attrib text children tail)) :
  forall e, P e.
Proof.
  fix IH 1. intros [tag attrib text children tail]. apply step.
  induction children as [|c l IHl]; constructor; [apply IH|exact IHl].
Qed.

(** ** The store of a document

    [load] lays the nodes of a document out in document order: the node of
    an element, then the nodes of its first child, and so on. *)

Fixpoint size (e : element) : nat :=
  match e with
  | Element _ _ _ children _ => S (list_sum (map size children))
  end.

(** The indices of the children of a node whose first child is at [j]. *)
Fixpoint kid_ids (j : nat) (l : list element) : list nat :=
  match l with
  | [] => []
  | c :: l' => j :: kid_ids (j + size c) l'
  end.

(** The nodes of [e] when its own node is at index [i]. *)
Fixpoint flatten (parent : option nat) (i : nat) (e : element) : list node :=
  match e with
  | Element tag attrib text children tail =>
      Node tag attrib text tail (kid_ids (S i) children) parent
      :: (fix flatten_all (l : list element) (j : nat) : list node :=
            match l with
            | [] => []
            | c :: l' => flatten (Some i) j c ++ flatten_all l' (j + size c)
            end) children (S i)
  end.

Fixpoint flatten_all (parent : option nat) (j : nat) (l : list element) : list node :=
  match l with
  | [] => []
  | c :: l' => flatten parent j c ++ flatten_all parent (j + size c) l'
  end.

Lemma flatten_unfold parent i tag attrib text children tail :
  flatten parent i (Element tag attrib text children tail)
  = Node tag attrib text tail (kid_ids (S i) children) parent
    :: flatten_all (Some i) (S i) children.
Proof.
  cbn [flatten]. f_equal. generalize (S i).
  induction children as [|c l IH]; intros j; [reflexivity|].
  cbn [flatten_all]. rewrite IH. reflexivity.
Qed.

Lemma flatten_all_length parent j (l : list element) :
  Forall (fun e => forall p i, length (flatten p i e) = size e) l ->
  length (flatten_all parent j l) = list_sum (map size l).
Proof.
  intros Hl. revert j. induction Hl as [|c l Hc Hl IH]; intros j; [reflexivity|].
  cbn [flatten_all map list_sum]. rewrite length_app, Hc, IH. reflexivity.
Qed.

Lemma flatten_length (e : element) : forall parent i, length (flatten parent i e) = size e.
Proof.
  induction e as [tag attrib text children tail IH] using element_rect_children.
  intros parent i. rewrite flatten_unfold. cbn [length size].
  rewrite flatten_all_length by assumption. reflexivity.
Qed.

Lemma flatten_all_length' parent j (l : list element) :
  length (flatten_all parent j l) = list_sum (map size l).
Proof.
  apply flatten_all_length, Forall_forall. intros e _. apply flatten_length.
Qed.

(** The loop over the children inside [load]. *)
Fixpoint load_all (parent : option nat) (l : list element) (s : store) : list nat * store :=
  match l with
  | [] => ([], s)
  | c :: l' =>
      let '(j, s') := load parent c s in
      let '(js, s'') := load_all parent l' s' in
      (j :: js, s'')
  end.

Lemma load_unfold parent tag attrib text children tail (s : store) :
  load parent (Element tag attrib text children tail) s
  = let '(kids, s2) :=
      load_all (Some (length s)) children
        (s ++ [Node tag attrib text tail [] parent]) in
    (length s, alter (with_children kids) (length s) s2).
Proof.
  cbn [load]. cbv zeta.
  match goal with
  | |- (let '(_, _) := ?f children ?s1 in _) = _ =>
      assert (E : forall l s0, f l s0 = load_all (Some (length s)) l s0)
  end.
  { induction l as [|c l IH]; intros s0; [reflexivity|].
    cbn [load_all]. destruct (load (Some (length s)) c s0) as [j s'].
    rewrite IH. reflexivity. }
  rewrite E. reflexivity.
Qed.

Lemma load_all_flatten (l : list element) :
  Forall (fun e => forall parent (s : store),
            load parent e s = (length s, s ++ flatten parent (length s) e)) l ->
  forall parent (s : store),
    load_all parent l s
    = (kid_ids (length s) l, s ++ flatten_all parent (length s) l).
Proof.
  induction 1 as [|c l Hc Hl IH]; intros parent s; cbn [load_all kid_ids flatten_all].
  - rewrite app_nil_r. reflexivity.
  - rewrite Hc, IH, length_app, flatten_length, <- app_assoc. reflexivity.
Qed.

Lemma load_flatten (e : element) :
  forall parent (s : store),
    load parent e s = (length s, s ++ flatten parent (length s) e).
Proof.
  induction e as [tag attrib text children tail IH] using element_rect_children.
  intros parent s. rewrite load_unfold, flatten_unfold.
  rewrite (load_all_flatten _ IH), length_app. cbn [length].
  rewrite Nat.add_1_r. f_equal.
  rewrite <- app_assoc. cbn [app].
  rewrite alter_app_r_alt by lia. rewrite Nat.sub_diag. reflexivity.
Qed.

(** Document order in the store of a document is the order of the
    indices. *)
Lemma subtree_flatten_all (d : nat) (l : list element) :
  Forall (fun e => forall parent i (pre post : store),
            length pre = i -> size e <= d ->
            subtree d (pre ++ flatten parent i e ++ post) i = seq i (size e)) l ->
  forall parent j (pre post : store),
    length pre = j -> list_sum (map size l) <= d ->
    flat_map (subtree d (pre ++ flatten_all parent j l ++ post)) (kid_ids j l)
    = seq j (list_sum (map size l)).
Proof.
  induction 1 as [|c l Hc Hl IH]; intros parent j pre post Hj Hd; [reflexivity|].
  cbn [flatten_all kid_ids flat_map map] in *.
  change (list_sum (size c :: map size l)) with (size c + list_sum (map size l)) in *.
  rewrite seq_app. f_equal.
  - rewrite <- app_assoc. apply Hc; [assumption|lia].
  - rewrite <- app_assoc.
    rewrite (app_assoc pre).
    apply IH; [|lia]. rewrite length_app, flatten_length. lia.
Qed.

Lemma subtree_flatten (e : element) :
  forall (d : nat) parent i (pre post : store),
    length pre = i -> size e <= d ->
    subtree d (pre ++ flatten parent i e ++ post) i = seq i (size e).
Proof.
  induction e as [tag attrib text children tail IH] using element_rect_children.
  intros d parent i pre post Hi Hd. cbn [size] in *.
  destruct d as [|d]; [lia|]. cbn [subtree].
  rewrite flatten_unfold.
  rewrite lookup_app_r by lia. rewrite Hi, Nat.sub_diag. cbn [app lookup list_lookup el_children].
  cbn [seq]. f_equal.
  change (pre ++ ?n :: ?rest ++ post) with (pre ++ [n] ++ rest ++ post).
  rewrite (app_assoc pre).
  apply subtree_flatten_all.
  - eapply Forall_impl; [|exact IH]. intros e He p j pre' post' Hj Hs.
    apply He; assumption.
  - rewrite length_app. cbn. lia.
  - lia.
Qed.

Lemma flatten_head parent i (e : element) :
  exists n, flatten parent i e !! 0 = Some n /\ el_parent n = parent
            /\ match e with
               | Element tag attrib text _ _ =>
                   el_tag n = tag /\ el_attrib n = attrib /\ el_text n = text
               end.
Proof.
  destruct e as [tag attrib text children tail]. rewrite flatten_unfold.
  eexists. split; [reflexivity|]. cbn. auto.
Qed.



(** Every node but the first has its parent among the nodes. *)
Lemma flatten_all_parent (l : list element) :
  Forall (fun e => forall parent i k n,
            flatten parent i e !! k = Some n -> k <> 0 ->
            exists p, el_parent n = Some p /\ i <= p < i + size e) l ->
  forall p0 j k n,
    flatten_all (Some p0) j l !! k = Some n ->
    exists p, el_parent n = Some p
              /\ (p = p0 \/ j <= p < j + list_sum (map size l)).
Proof.
  induction 1 as [|c l Hc Hl IH]; intros p0 j k n Hk; [discriminate|].
  cbn [flatten_all map] in *.
  change (list_sum (size c :: map size l)) with (size c + list_sum (map size l)).
  apply lookup_app_Some in Hk as [Hk|[Hge Hk]].
  - destruct k as [|k].
    + destruct (flatten_head (Some p0) j c) as (n0 & Hn0 & Hp & _).
      assert (n0 = n) as -> by congruence. eauto.
    + destruct (Hc _ _ _ _ Hk) as (p & Hp & Hr); [lia|].
      exists p. split; [assumption|right; lia].
  - rewrite flatten_length in Hk.
    destruct (IH _ _ _ _ Hk) as (p & Hp & [->|Hr]); eauto.
    exists p. split; [assumption|right; lia].
Qed.

Lemma flatten_parent (e : element) :
  forall parent i k n,
    flatten parent i e !! k = Some n -> k <> 0 ->
    exists p, el_parent n = Some p /\ i <= p < i + size e.
Proof.
  induction e as [tag attrib text children tail IH] using element_rect_children.
  intros parent i k n Hk Hne. rewrite flatten_unfold in Hk.
  destruct k as [|k]; [congruence|]. cbn [lookup list_lookup] in Hk.
  destruct (flatten_all_parent _ IH _ _ _ _ Hk) as (p & Hp & Hr).
  exists p. split; [assumption|]. cbn [size]. lia.
Qed.

(** Some element below the root of a document has a tag, attributes and a
    text that satisfy [P]. *)
Inductive inside (P : str -> list (str * str) -> option str -> Prop) : element -> Prop :=
| inside_child tag attrib text children tail ctag cattrib ctext ckids ctail :
    Element ctag cattrib ctext ckids ctail ∈ children ->
    P ctag cattrib ctext ->
    inside P (Element tag attrib text children tail)
| inside_deeper tag attrib text children tail c :
    c ∈ children -> inside P c ->
    inside P (Element tag attrib text children tail).


Lemma inside_impl (P Q : str -> list (str * str) -> option str -> Prop) (e : element) :
  (forall tag attrib text, P tag attrib text -> Q tag attrib text) ->
  inside P e -> inside Q e.
Proof.
  intros HPQ. induction 1 as [? ? ? ? ? ? ? ? ? ? Hin HP|? ? ? ? ? c Hin Hc IH].
  - eapply inside_child; [exact Hin|apply HPQ, HP].
  - eapply inside_deeper; [exact Hin|exact IH].
Qed.

(** Every node behind the first one belongs to an element inside the
    document. *)
Lemma flatten_all_inside (l : list element) :
  Forall (fun e => forall parent i k n,
            flatten parent i e !! k = Some n -> 1 <= k ->
            inside (fun tag attrib text =>
                      tag = el_tag n /\ attrib = el_attrib n /\ text = el_text n) e) l ->
  forall parent j k n,
    flatten_all parent j l !! k = Some n ->
    exists c, c ∈ l
      /\ ((match c with
           | Element tag attrib text _ _ =>
               tag = el_tag n /\ attrib = el_attrib n /\ text = el_text n
           end)
          \/ inside (fun tag attrib text =>
                       tag = el_tag n /\ attrib = el_attrib n /\ text = el_text n) c).
Proof.
  induction 1 as [|c l Hc Hl IH]; intros parent j k n Hk; [discriminate|].
  cbn [flatten_all] in Hk.
  apply lookup_app_Some in Hk as [Hk|[_ Hk]].
  - exists c. split; [apply list_elem_of_here|].
    destruct k as [|k].
    + left. destruct (flatten_head parent j c) as (n0 & Hn0 & _ & Hc0).
      assert (n0 = n) as -> by congruence.
      destruct c as [tag attrib text children tail].
      destruct Hc0 as (-> & -> & ->). auto.
    + right. eapply Hc; [exact Hk|lia].
  - destruct (IH _ _ _ _ Hk) as (c' & Hin & Hc').
    exists c'. split; [apply list_elem_of_further, Hin|exact Hc'].
Qed.

Lemma flatten_inside (e : element) :
  forall parent i k n,
    flatten parent i e !! k = Some n -> 1 <= k ->
    inside (fun tag attrib text =>
              tag = el_tag n /\ attrib = el_attrib n /\ text = el_text n) e.
Proof.
  induction e as [tag attrib text children tail IH] using element_rect_children.
  intros parent i k n Hk Hge. rewrite flatten_unfold in Hk.
  destruct k as [|k]; [lia|]. cbn [lookup list_lookup] in Hk.
  destruct (flatten_all_inside _ IH _ _ _ _ Hk) as (c & Hin & [Hc|Hc]).
  - destruct c as [ctag cattrib ctext ckids ctail].
    eapply inside_child; [exact Hin|exact Hc].
  - eapply inside_deeper; [exact Hin|exact Hc].
Qed.

(** ** The anchor loop on the store of a document *)

Section LoopFacts.
Context `{Interp}.

(** The anchors still to visit are nodes with a parent in the store. *)
Definition attached (s : store) (l : list nat) : Prop :=
  forall b, b ∈ l ->
    exists nb p, s !! b = Some nb /\ el_parent nb = Some p /\ p < length s.

(** The node of an anchor with text on whose href the [try] block raises
    ValueError. *)
Definition unsplit (target_url : str) (n : node) : Prop :=
  has_text (el_text n) = true
  /\ exists href, attr_get HREF (el_attrib n) = Some href
                  /\ href_raises target_url href = true.

Lemma fix_href_outcome (target_url : str) (s : store) (a : nat) (n : node) :
  s !! a = Some n ->
  (exists s', fix_href target_url a s = inr (tt, s') /\ length s' = length s)
  \/ fix_href target_url a s = inl KeyError
  \/ (fix_href target_url a s = inl ValueError
      /\ exists href, attr_get HREF (el_attrib n) = Some href
                      /\ href_raises target_url href = true).
Proof.
  intros Ha. destruct (attr_get HREF (el_attrib n)) as [href|] eqn:Hh.
  - destruct (href_raises target_url href) eqn:Hv.
    + right. right. split; [|eauto].
      eapply fix_href_ValueError; eassumption.
    + left. destruct (schemeful_domain target_url) as [e|root] eqn:Hroot.
      * unfold fix_href.
        rewrite (bind_inr _ _ _ _ _ (attrib_getitem_Some _ _ _ _ _ Ha Hh)).
        unfold href_raises in Hv. rewrite Hroot in Hv.
        destruct (URLValidator default_schemes href); try discriminate.
        eexists. split; reflexivity.
      * rewrite (fix_href_run _ _ _ _ _ _ Ha Hh Hroot), Hv.
        eexists. split; [reflexivity|]. apply length_insert.
  - right. left. eapply fix_href_KeyError; eassumption.
Qed.

Lemma anchor_body_outcome (target_url : str) (s : store) (b p : nat) (nb : node) :
  s !! b = Some nb -> el_parent nb = Some p -> p < length s ->
  (exists s', anchor_body target_url b s = inr (tt, s') /\ length s <= length s')
  \/ anchor_body target_url b s = inl KeyError
  \/ (anchor_body target_url b s = inl ValueError /\ unsplit target_url nb).
Proof.
  intros Hb Hp Hlt. destruct (has_text (el_text nb)) eqn:Ht.
  - rewrite (anchor_body_text _ _ _ _ Hb Ht).
    destruct (fix_href_outcome target_url _ _ _ (wrapped_lookup_a _ _ _ Hb))
      as [(s' & Hrun & Hlen)|[Hk|[Hv Hwhy]]]; [left|right; left|right; right];
      try assumption.
    + exists s'. split; [assumption|]. rewrite Hlen, wrapped_length. lia.
    + split; [assumption|]. split; [exact Ht|exact Hwhy].
  - left. destruct (lookup_lt_is_Some_2 _ _ Hlt) as [pn Hpn].
    unfold anchor_body.
    rewrite (bind_inr _ _ _ _ _ (get_node_Some _ _ _ Hb)), Ht.
    unfold remove_from_parent.
    rewrite (bind_inr _ _ _ _ _ (get_node_Some _ _ _ Hb)), Hp.
    unfold remove.
    rewrite (bind_inr _ _ _ _ _ (get_node_Some _ _ _ Hb)), Hp.
    rewrite bool_decide_true by reflexivity.
    rewrite (bind_inr _ _ _ _ _ (modify_Some _ _ _ _ Hpn)).
    assert (Hlb : b < length (<[p := with_children (remove_id b (el_children pn)) pn]> s)).
    { rewrite length_insert. eapply lookup_lt_Some; eassumption. }
    destruct (lookup_lt_is_Some_2 _ _ Hlb) as [nb1 Hnb1].
    rewrite (modify_Some _ _ _ _ Hnb1).
    eexists. split; [reflexivity|]. rewrite !length_insert. lia.
Qed.

Lemma unsplit_same_slots (target_url : str) (n n' : node) :
  same_slots n n' -> unsplit target_url n' -> unsplit target_url n.
Proof.
  intros (_ & Ha & Ht & _) [Htext Hhref]. unfold unsplit.
  rewrite <- Ha, <- Ht. auto.
Qed.

(** The anchors still to visit keep their parents over a pass. *)
Lemma attached_step (target_url : str) (b : nat) (l : list nat) (s s1 : store) :
  b ∉ l -> attached s (b :: l) ->
  anchor_body target_url b s = inr (tt, s1) -> length s <= length s1 ->
  attached s1 l.
Proof.
  intros Hb Hatt Hrun Hlen c Hc.
  destruct (Hatt c) as (nc & pc & Hnc & Hpc & Hltc);
    [apply list_elem_of_further; assumption|].
  destruct (anchor_body_frame _ _ _ _ Hrun c nc) as (nc' & Hnc' & Hslc);
    [intros ->; contradiction|assumption|].
  destruct Hslc as (_ & _ & _ & _ & Hpar).
  exists nc', pc. split; [assumption|]. split; [congruence|lia].
Qed.




(** The anchor [process_page] stumbles over: it has text and no href. *)
Definition no_href (tag : str) (attrib : list (str * str)) (text : option str) : Prop :=
  tag = A_TAG /\ has_text text = true /\ attr_get HREF attrib = None.

Lemma load_document (doc : element) :
  load None doc [] = (0, flatten None 0 doc).
Proof. rewrite load_flatten. reflexivity. Qed.

Lemma anchors_below_document (doc : element) :
  anchors_below (flatten None 0 doc) 0
  = filter (fun i => is_anchor (flatten None 0 doc) i = true)
      (seq 1 (size doc - 1)).
Proof.
  unfold anchors_below. rewrite flatten_length.
  pose proof (subtree_flatten doc (size doc) None 0 [] [] eq_refl (le_n _)) as E.
  cbn [app] in E. rewrite app_nil_r in E. rewrite E.
  rewrite drop_seq. reflexivity.
Qed.

Lemma process_tree_unfold (target_url : str) (root : nat) (s : store) :
  process_tree target_url root s
  = (for_each (anchors_below s root) (anchor_body target_url) ;;
     do elements <- iter root;
     for_each elements element_body) s.
Proof. reflexivity. Qed.

(** An anchor with text on whose href the [try] block raises ValueError:
    [urlsplit] raises on it inside the validator, or the validator rejects
    it and the target has no root or makes an address with a character
    lxml refuses. *)
Definition unsplittable (target_url : str)
    (tag : str) (attrib : list (str * str)) (text : option str) : Prop :=
  tag = A_TAG /\ has_text text = true
  /\ exists href, attr_get HREF attrib = Some href
                  /\ href_raises target_url href = true.

Lemma attached_document (doc : element) :
  attached (flatten None 0 doc) (anchors_below (flatten None 0 doc) 0).
Proof.
  intros b Hb. rewrite anchors_below_document in Hb.
  apply list_elem_of_filter in Hb as [_ Hb]. apply elem_of_seq in Hb.
  assert (Hlt : b < length (flatten None 0 doc)) by (rewrite flatten_length; lia).
  destruct (lookup_lt_is_Some_2 _ _ Hlt) as [nb Hnb].
  destruct (flatten_parent doc None 0 b nb Hnb) as (p & Hp & Hr); [lia|].
  exists nb, p. split; [assumption|]. split; [assumption|].
  rewrite flatten_length. lia.
Qed.

Lemma NoDup_anchors_document (doc : element) :
  NoDup (anchors_below (flatten None 0 doc) 0).
Proof. rewrite anchors_below_document. apply list.NoDup_filter, NoDup_seq. Qed.

(** An anchor the loop visits is an anchor inside the document. *)
Lemma anchors_below_inside (doc : element) (b : nat) (n : node) :
  b ∈ anchors_below (flatten None 0 doc) 0 ->
  flatten None 0 doc !! b = Some n ->
  el_tag n = A_TAG
  /\ inside (fun tag attrib text =>
               tag = el_tag n /\ attrib = el_attrib n /\ text = el_text n) doc.
Proof.
  intros Hb Hn. rewrite anchors_below_document in Hb.
  apply list_elem_of_filter in Hb as [Ha Hb]. apply elem_of_seq in Hb.
  unfold is_anchor in Ha. rewrite Hn in Ha.
  unfold str_eqb in Ha. apply bool_decide_eq_true in Ha.
  split; [exact Ha|]. exact (flatten_inside doc None 0 b n Hn (proj1 Hb)).
Qed.




(** *** No run on a document gets stuck *)

Lemma for_each_anchors_outcome (target_url : str) (l : list nat) :
  NoDup l ->
  forall s,
    attached s l ->
    (exists s', for_each l (anchor_body target_url) s = inr (tt, s')
                /\ length s <= length s')
    \/ for_each l (anchor_body target_url) s = inl KeyError
    \/ for_each l (anchor_body target_url) s = inl ValueError.
Proof.
  induction 1 as [|b l Hb Hnd IH]; intros s Hatt.
  - left. exists s. split; [reflexivity|lia].
  - cbn [for_each].
    destruct (Hatt b) as (nb & p & Hnb & Hp & Hlt); [apply list_elem_of_here|].
    destruct (anchor_body_outcome target_url _ _ _ _ Hnb Hp Hlt)
      as [(s1 & Hrun & Hlen)|[Hk|[Hv _]]].
    + rewrite (bind_inr _ _ _ _ _ Hrun).
      destruct (IH s1) as [(s' & Hrun' & Hlen')|Herr].
      * eapply attached_step; eassumption.
      * left. exists s'. split; [assumption|lia].
      * right. exact Herr.
    + right. left. apply bind_inl. assumption.
    + right. right. apply bind_inl. assumption.
Qed.

Lemma subtree_valid (d : nat) (s : store) :
  forall i j, j ∈ subtree d s i -> j < length s.
Proof.
  induction d as [|d IH]; intros i j Hj; cbn [subtree] in Hj.
  - apply elem_of_nil in Hj. contradiction.
  - destruct (s !! i) as [n|] eqn:Hi; [|apply elem_of_nil in Hj; contradiction].
    apply elem_of_cons in Hj as [->|Hj].
    + eapply lookup_lt_Some; eassumption.
    + apply list_elem_of_In, in_flat_map in Hj as (c & _ & Hj).
      apply (IH c). apply list_elem_of_In. exact Hj.
Qed.

Lemma for_each_elements (l : list nat) :
  forall s,
    (forall e, e ∈ l -> e < length s) ->
    exists s', for_each l element_body s = inr (tt, s') /\ length s' = length s.
Proof.
  induction l as [|e l IH]; intros s Hl.
  - exists s. split; reflexivity.
  - cbn [for_each].
    destruct (lookup_lt_is_Some_2 s e) as [n Hn]; [apply Hl, list_elem_of_here|].
    rewrite (bind_inr _ _ _ _ _ (element_body_run _ _ _ Hn)).
    destruct (IH (<[e := Node (el_tag n) (el_attrib n) (reinforce_slot (el_text n))
                          (reinforce_slot (el_tail n)) (el_children n) (el_parent n)]> s))
      as (s' & Hrun & Hlen).
    + intros e' He'. rewrite length_insert. apply Hl, list_elem_of_further, He'.
    + exists s'. split; [assumption|]. rewrite Hlen. apply length_insert.
Qed.

Lemma snapshot_root (s : store) (root : nat) :
  root < length s -> exists out, snapshot (length s) s root = Some out.
Proof.
  intros Hlt. destruct (lookup_lt_is_Some_2 _ _ Hlt) as [n Hn].
  destruct (length s) as [|d]; [lia|]. cbn [snapshot]. rewrite Hn. eauto.
Qed.

(** On every document [process_document] returns a page or raises
    KeyError or ValueError. *)
Lemma process_document_outcome (target_url : str) (doc : element) :
  (exists page, process_document target_url doc = inr page)
  \/ process_document target_url doc = inl KeyError
  \/ process_document target_url doc = inl ValueError.
Proof.
  unfold process_document. rewrite load_document, process_tree_unfold.
  set (s := flatten None 0 doc).
  assert (Hs : 0 < length s).
  { unfold s. rewrite flatten_length. destruct doc. cbn. lia. }
  destruct (for_each_anchors_outcome target_url _ (NoDup_anchors_document doc) s
              (attached_document doc))
    as [(s1 & Hrun & Hlen)|[Hk|Hv]].
  - fold s in Hrun. rewrite (bind_inr _ _ _ _ _ Hrun).
    unfold bind at 1. unfold iter at 1.
    destruct (for_each_elements (subtree (length s1) s1 0) s1) as (s2 & Hrun2 & Hlen2).
    { intros e He. eapply subtree_valid. exact He. }
    rewrite Hrun2.
    destruct (snapshot_root s2 0) as [out Hout]; [lia|].
    rewrite Hout. left. eauto.
  - right. left. fold s in Hk. rewrite (bind_inl _ _ _ _ Hk). reflexivity.
  - right. right. fold s in Hv. rewrite (bind_inl _ _ _ _ Hv). reflexivity.
Qed.

(** *** The second loop visits each element of its list once *)

(** An element after its pass of the second loop. *)
Definition reinforced (n : node) : node :=
  Node (el_tag n) (el_attrib n) (reinforce_slot (el_text n))
    (reinforce_slot (el_tail n)) (el_children n) (el_parent n).

Lemma for_each_elements_once (l : list nat) :
  NoDup l ->
  forall s,
    (forall e, e ∈ l -> e < length s) ->
    exists s',
      for_each l element_body s = inr (tt, s')
      /\ forall i n, s !! i = Some n ->
           s' !! i = Some (if bool_decide (i ∈ l) then reinforced n else n).
Proof.
  induction 1 as [|e l He Hnd IH]; intros s Hl.
  - exists s. split; [reflexivity|]. intros i n Hi.
    rewrite bool_decide_false by apply not_elem_of_nil. exact Hi.
  - cbn [for_each].
    destruct (lookup_lt_is_Some_2 s e) as [ne Hne]; [apply Hl, list_elem_of_here|].
    rewrite (bind_inr _ _ _ _ _ (element_body_run _ _ _ Hne)).
    fold (reinforced ne).
    destruct (IH (<[e := reinforced ne]> s)) as (s' & Hrun & Hslots).
    { intros e' He'. rewrite length_insert. apply Hl, list_elem_of_further, He'. }
    exists s'. split; [exact Hrun|]. intros i n Hi.
    destruct (decide (i = e)) as [->|Hie].
    + assert (ne = n) as -> by congruence.
      rewrite bool_decide_true by apply list_elem_of_here.
      rewrite (Hslots e (reinforced n)).
      * rewrite bool_decide_false by exact He. reflexivity.
      * apply list_lookup_insert_eq. eapply lookup_lt_Some; eassumption.
    + rewrite (Hslots i n) by (rewrite list_lookup_insert_ne by congruence; exact Hi).
      destruct (bool_decide (i ∈ l)) eqn:E.
      * apply bool_decide_eq_true in E.
        rewrite bool_decide_true by (apply list_elem_of_further; exact E).
        reflexivity.
      * apply bool_decide_eq_false in E.
        rewrite bool_decide_false; [reflexivity|].
        intros [->|Hin]%elem_of_cons; [congruence|contradiction].
Qed.

End LoopFacts.

(** ** process_page: what the two loops do *)

Definition GOOGLE : str := lit "https://google.com/".

(** The store [etree.fromstring] builds for a page, with its root. *)
Definition parsed (page : string) : option (nat * store) :=
  option_map (fun doc => load None doc []) (read_document (markup page)).

(** C1, on a page whose anchor has no text and is followed by the word
    [tail]. In every store, the pass of the anchor loop on an anchor without
    text takes the anchor out of the child list of its parent and leaves
    every text slot and every tail slot as it was: the tail of the anchor
    goes with the anchor. On the page, the parent keeps the text [x] alone
    and the result has lost the word [tail], which a tail moved to the text
    of the parent would have left behind the [x]. *)
Theorem empty_anchor_takes_its_tail_along :
  (forall (I : Interp) target_url (s : store) a p n pn,
     s !! a = Some n -> has_text (el_text n) = false ->
     el_parent n = Some p -> p <> a -> s !! p = Some pn ->
     exists s' pn',
       anchor_body target_url a s = inr (tt, s')
       /\ s' !! p = Some pn'
       /\ el_children pn' = remove_id a (el_children pn)
       /\ (a ∉ el_children pn')
       /\ forall i, el_text <$> s' !! i = el_text <$> s !! i
                    /\ el_tail <$> s' !! i = el_tail <$> s !! i)
  /\ @process_page ascii_in_order (markup "<div>x<a href='u'></a>tail</div>") GOOGLE
     = inr (lit "<div>x </div>")
  /\ (exists s',
        parsed "<div>x<a href='u'></a>tail</div>" = Some (0, s')
        /\ (el_tail <$> s' !! 1) = Some (Some (lit "tail"))
        /\ exists s'',
             @anchor_body ascii_in_order GOOGLE 1 s' = inr (tt, s'')
             /\ (el_text <$> s'' !! 0) = Some (Some (lit "x"))
             /\ (el_children <$> s'' !! 0) = Some []).
Proof.
  split; [|split].
  - intros I target_url s a p n pn Ha Ht Hp Hne Hpn.
    exists (unlinked s a p n pn).
    exists (with_children (remove_id a (el_children pn)) pn).
    split; [apply anchor_body_blank; assumption|].
    split.
    { unfold unlinked. rewrite list_lookup_insert_ne by congruence.
      apply list_lookup_insert_eq. eapply lookup_lt_Some; eassumption. }
    split; [reflexivity|].
    split; [apply remove_id_not_elem|].
    intros i. apply unlinked_slots; assumption.
  - vm_compute. reflexivity.
  - eexists. split; [vm_compute; reflexivity|].
    split; [reflexivity|].
    eexists. split; [vm_compute; reflexivity|].
    split; reflexivity.
Qed.

(** ** sterilize_page: what the cleaner leaves *)












Lemma verdict_Keep (embedded : bool) (tag : str) :
  verdict_of embedded tag = Keep -> tag = A_TAG.
Proof.
  unfold verdict_of.
  destruct (bool_decide (tag = PARAM) && negb embedded); [discriminate|].
  destruct (bool_decide (tag ∈ kill_tags)); [discriminate|].
  destruct (bool_decide (tag ∈ remove_tags)); [discriminate|].
  case_bool_decide as Ha; [|discriminate].
  intros _. unfold allow_tags in Ha. apply list_elem_of_singleton in Ha. exact Ha.
Qed.

Lemma verdict_anchor (embedded : bool) : verdict_of embedded A_TAG = Keep.
Proof. destruct embedded; vm_compute; reflexivity. Qed.


Section SterilizeFacts.
Context `{Interp}.




(** The loop over the children inside [clean_element] is [clean_children]. *)
Lemma clean_element_unfold (embedded : bool) tag attrib text children tail (c : content) :
  clean_element embedded (Element tag attrib text children tail) c
  = match verdict_of embedded tag with
    | Kill => attach tail c
    | Unwrap =>
        attach tail (clean_children (embedded || embeds tag) children (attach text c))
    | Keep =>
        let '(text', kids) :=
          clean_children (embedded || embeds tag) children (text, []) in
        (fst c, Element tag (clean_attrib attrib) text' (rev kids) tail :: snd c)
    end.
Proof.
  cbn [clean_element].
  assert (E : forall l c0,
             (fix clean_all (l : list element) (c : content) : content :=
                match l with
                | [] => c
                | e' :: l' =>
                    clean_all l' (clean_element (embedded || embeds tag) e' c)
                end) l c0
             = clean_children (embedded || embeds tag) l c0).
  { induction l as [|e' l IHl]; intros c0; [reflexivity|]. apply IHl. }
  rewrite !E. reflexivity.
Qed.





End SterilizeFacts.




(** ** The cases of tests.py on ASCII text *)

Section Tests.
#[local] Existing Instance ascii_in_order.

Example test_reinforce_text_ascii :
  reinforce_text (lit "The quick brown fox jumps over the lazy dog.")
  = lit "The <strong>quick</strong> <strong>brown</strong> fox <strong>jumps</strong> over the lazy dog. "
  /\ reinforce_text (markup "<a href=''><em>A phrase inside will get changed too!</em></a>")
     = markup "<a href=''><em>A <strong>phrase</strong> <strong>inside</strong> will get <strong>changed</strong> too!</em></a> "
  /\ reinforce_text (lit "The same words will get changed nicely too, see for yourself: words words words words.")
     = lit "The same <strong>words</strong> will get <strong>changed</strong> <strong>nicely</strong> too, see for <strong>yourself</strong>: <strong>words</strong> <strong>words</strong> <strong>words</strong> <strong>words</strong>. ".
Proof. repeat split; vm_compute; reflexivity. Qed.

Example test_url_parsing :
  schemeful_domain (lit "https://google.com/chrome/browser/desktop/index.html")
  = inr (lit "https://google.com/")
  /\ schemeful_domain (lit "https://github.com/Spacehug") = inr (lit "https://github.com/")
  /\ schemeful_domain (lit "http://127.0.0.1/admin/") = inr (lit "http://127.0.0.1/").
Proof. repeat split; vm_compute; reflexivity. Qed.

Example test_normal_page_processing :
  process_page (markup "<div>Sadly, but <a href='https://google.com/True'>True</a> </div>") GOOGLE
  = inr (markup "<div><strong>Sadly</strong>, but <a href='https://google.com/True'><em>True </em></a> </div>").
Proof. vm_compute. reflexivity. Qed.

Example test_empty_link_removal :
  process_page (markup "<div>A link: <a href=''></a> </div>") GOOGLE
  = inr (markup "<div>A link: </div>").
Proof. vm_compute. reflexivity. Qed.

Example test_valid_form_urls :
  URLValidator [lit "http"; lit "https"] (lit "https://google.com") = Valid
  /\ URLValidator [lit "http"; lit "https"] (lit "http://ru.wikipedia.org/") = Valid
  /\ URLValidator [lit "http"; lit "https"] (lit "a:b.c:d") = ValidationError.
Proof. repeat split; vm_compute; reflexivity. Qed.

End Tests.

(** * Further properties of the code *)

(** ** schemeful_domain and absolutize_url *)

(** X2. Whatever root [schemeful_domain] returns ends with a slash, so
    [absolutize_url] on that root never returns [None]: it returns the root
    followed by the path without its leading slash, if it has one. The
    handler of [process_page] therefore never assigns [None] to an href. *)
Theorem absolutize_url_on_schemeful_domain (target_url root path : str) :
  schemeful_domain target_url = inr root ->
  ends_with_slash root
  /\ absolutize_url root path = Some (root ++ strip_slash path)
  /\ (starts_with_slash path -> absolutize_url root path = Some (root ++ drop 1 path))
  /\ (~ starts_with_slash path -> absolutize_url root path = Some (root ++ path)).
Proof.
  intros Hroot. pose proof (schemeful_domain_slash _ _ Hroot) as Hs.
  split; [apply endswith_slash; exact Hs|].
  split; [apply absolutize_from_root; exact Hs|].
  split; intros Hp; rewrite (absolutize_from_root _ _ Hs); unfold strip_slash.
  - apply startswith_slash in Hp. rewrite Hp. reflexivity.
  - apply startswith_false in Hp. rewrite Hp. reflexivity.
Qed.

Lemma absolutize_url_on_schemeful_domain_witness :
  absolutize_url (lit "https://github.com/") (lit "/Spacehug")
  = Some (lit "https://github.com/" ++ strip_slash (lit "/Spacehug")).
Proof.
  exact (proj1 (proj2 (absolutize_url_on_schemeful_domain
           (lit "https://github.com/Spacehug") (lit "https://github.com/")
           (lit "/Spacehug") eq_refl))).
Defined.

(** ** reinforce_text: the words and the substitution *)

Section ReinforceMore.
Context `{Interp}.

Lemma split_from_chars (P : char -> Prop) (s cur : str) :
  Forall P cur -> Forall P s ->
  Forall (Forall P) (split_from cur s).
Proof.
  revert cur. induction s as [|c s IH]; intros cur Hcur Hs; cbn [split_from].
  - destruct cur; constructor; [assumption|constructor].
  - inversion Hs as [|? ? Hc Hs']; subst.
    destruct (isspace c).
    + destruct cur; [apply IH; [constructor|assumption]|].
      constructor; [assumption|]. apply IH; [constructor|assumption].
    + apply IH; [|assumption]. apply Forall_app. split; [assumption|].
      constructor; [assumption|constructor].
Qed.

Lemma set_iter_elem (l : list str) (w : str) : w ∈ set_iter l <-> w ∈ l.
Proof. rewrite (set_iter_perm l). apply elem_of_remove_dups. Qed.

Lemma set_iter_NoDup (l : list str) : NoDup (set_iter l).
Proof. rewrite (set_iter_perm l). apply NoDup_remove_dups. Qed.

(** X3. Every word the loop of [reinforce_text] iterates over is a
    non-empty run of letters without white space, whatever the text: the
    pattern and the replacement built from a word hold no character that is
    special to [re]. *)
Theorem words_are_runs_of_letters (text : str) :
  Forall (fun w => w <> [] /\ Forall (fun c => isalpha c = true /\ isspace c = false) w)
         (set_iter (words text)).
Proof.
  assert (Hw : Forall (fun w => w <> []
                 /\ Forall (fun c => isalpha c = true /\ isspace c = false) w)
                 (words text)).
  { unfold words, split.
    pose proof (split_from_spaceless
                  (map (fun c => if isalpha c then c else SP) text) [] (Forall_nil _)) as H1.
    pose proof (split_from_chars (fun c => isalpha c = true \/ c = SP)
                  (map (fun c => if isalpha c then c else SP) text) [] (Forall_nil _)) as H2.
    assert (Hmap : Forall (fun c => isalpha c = true \/ c = SP)
                     (map (fun c => if isalpha c then c else SP) text)).
    { apply Forall_forall. intros c Hin. apply in_map_iff in Hin as (x & <- & _).
      destruct (isalpha x) eqn:E; auto. }
    specialize (H2 Hmap).
    rewrite Forall_forall in H1, H2. apply Forall_forall. intros w Hin.
    destruct (H1 w Hin) as [Hne Hsp]. split; [exact Hne|].
    specialize (H2 w Hin). unfold spaceless in Hsp.
    rewrite Forall_forall in Hsp, H2. apply Forall_forall. intros c Hc.
    split; [|apply Hsp, Hc].
    destruct (H2 c Hc) as [Ha| ->]; [exact Ha|].
    specialize (Hsp SP Hc). rewrite isspace_SP in Hsp. discriminate. }
  rewrite Forall_forall in Hw. apply Forall_forall. intros w Hin.
  apply Hw. apply list_elem_of_In, set_iter_elem, list_elem_of_In, Hin.
Qed.

Lemma foldl_reinforce_short (order : list str) (text : str) :
  Forall (fun w => length w <= 4) order ->
  foldl reinforce_step text order = text.
Proof.
  induction 1 as [|w order Hw Ho IH]; [reflexivity|].
  cbn [foldl]. unfold reinforce_step at 2.
  destruct (4 <? length w) eqn:E; [apply Nat.ltb_lt in E; lia|]. exact IH.
Qed.

Lemma foldl_reinforce_one (order : list str) (w text : str) :
  NoDup order -> w ∈ order ->
  (forall w', w' ∈ order -> w' <> w -> length w' <= 4) ->
  foldl reinforce_step text order = reinforce_step text w.
Proof.
  induction 1 as [|x order Hx Hnd IH]; intros Hin Hshort.
  - apply elem_of_nil in Hin. contradiction.
  - cbn [foldl]. destruct (decide (x = w)) as [->|Hne].
    + apply foldl_reinforce_short. apply Forall_forall. intros w' Hw'.
      apply list_elem_of_In in Hw'. apply Hshort.
      * apply list_elem_of_further, Hw'.
      * intros ->. contradiction.
    + assert (Hxs : reinforce_step text x = text).
      { unfold reinforce_step.
        destruct (4 <? length x) eqn:E; [|reflexivity].
        apply Nat.ltb_lt in E.
        specialize (Hshort x (list_elem_of_here _ _) Hne). lia. }
      rewrite Hxs. apply IH.
      * apply elem_of_cons in Hin as [->|Hin]; [congruence|exact Hin].
      * intros w' Hw' Hw'ne. apply Hshort; [apply list_elem_of_further, Hw'|exact Hw'ne].
Qed.

(** X4. A text none of whose words is longer than four characters leaves
    [reinforce_text] with its white space collapsed and nothing wrapped; the
    empty text leaves it as one space. *)
Theorem reinforce_text_without_long_words :
  (forall text,
     Forall (fun w => length w <= 4) (words text) ->
     reinforce_text text = join [SP] (split text) ++ [SP])
  /\ reinforce_text [] = [SP].
Proof.
  assert (Hgen : forall text,
             Forall (fun w => length w <= 4) (words text) ->
             reinforce_text text = join [SP] (split text) ++ [SP]).
  { intros text Hshort. unfold reinforce_text, reinforce_in.
    rewrite foldl_reinforce_short; [reflexivity|].
    rewrite Forall_forall in Hshort. apply Forall_forall. intros w Hin.
    apply Hshort. apply list_elem_of_In, set_iter_elem, list_elem_of_In, Hin. }
  split; [exact Hgen|].
  rewrite Hgen; [reflexivity|constructor].
Qed.

(** X5. When at most one of the words of a text is longer than four
    characters, the order in which the set yields the words does not show:
    [reinforce_text] is the one substitution for that word, followed by the
    collapse of white space. *)
Theorem reinforce_text_with_one_long_word (text w : str) :
  w ∈ words text ->
  (forall w', w' ∈ words text -> w' <> w -> length w' <= 4) ->
  reinforce_text text = join [SP] (split (reinforce_step text w)) ++ [SP].
Proof.
  intros Hin Hshort. unfold reinforce_text, reinforce_in.
  rewrite (foldl_reinforce_one _ w); [reflexivity|apply set_iter_NoDup| |].
  - apply set_iter_elem, Hin.
  - intros w' Hw' Hne. apply Hshort; [apply set_iter_elem, Hw'|exact Hne].
Qed.

End ReinforceMore.

Lemma reinforce_text_without_long_words_witness :
  @reinforce_text ascii_reversed (lit "over  the lazy dog")
  = join [SP] (@split ascii_reversed (lit "over  the lazy dog")) ++ [SP].
Proof.
  apply (proj1 (@reinforce_text_without_long_words ascii_reversed)).
  vm_compute. repeat constructor.
Defined.

Lemma reinforce_text_with_one_long_word_witness :
  @reinforce_text ascii_reversed (lit "the quick fox")
  = join [SP] (@split ascii_reversed
                 (@reinforce_step ascii_reversed (lit "the quick fox") (lit "quick")))
    ++ [SP].
Proof.
  apply (@reinforce_text_with_one_long_word ascii_reversed).
  - vm_compute. apply list_elem_of_further, list_elem_of_here.
  - intros w' Hin Hne. vm_compute in Hin.
    apply elem_of_cons in Hin as [->|Hin]; [vm_compute; lia|].
    apply elem_of_cons in Hin as [->|Hin]; [contradiction Hne; reflexivity|].
    apply elem_of_cons in Hin as [->|Hin]; [vm_compute; lia|].
    apply elem_of_nil in Hin. contradiction.
Defined.

(** ** reinforce_text: whole words only *)

Section WholeWords.
Context `{Interp}.

Lemma startswith_app (p s : str) :
  startswith p s = true <-> exists r, s = p ++ r.
Proof.
  revert s. induction p as [|a p IH]; intros s; cbn [startswith].
  - split; [eauto|reflexivity].
  - destruct s as [|b s]; [split; [discriminate|intros [r [=]]]|].
    rewrite andb_true_iff, N.eqb_eq, IH. split.
    + intros [-> [r ->]]. eauto.
    + intros [r [= -> ->]]. eauto.
Qed.

Lemma sub_from_skip_all (word : str) (s : str) :
  forall prev k, length s <= k -> sub_from word prev k s = [].
Proof.
  induction s as [|c s IH]; intros prev k Hk; [reflexivity|].
  cbn [length] in Hk. destruct k as [|k]; [lia|].
  cbn [sub_from]. apply IH. lia.
Qed.

Lemma sub_from_inside_word (word : str) (s : str) :
  Forall (fun c => isword c = true) s ->
  forall p, isword p = true -> sub_from word (Some p) 0 s = s.
Proof.
  induction 1 as [|c s Hc Hs IH]; intros p Hp; [reflexivity|].
  cbn [sub_from]. unfold match_here, boundary. cbn [head is_word_opt].
  rewrite Hp, Hc. cbn [xorb andb]. f_equal. apply IH. exact Hc.
Qed.

Lemma last_wordchar (w : str) :
  w <> [] -> Forall (fun c => isword c = true) w ->
  is_word_opt (list.last w) = true.
Proof.
  intros Hne Hw. destruct (list.last w) as [l|] eqn:E.
  - cbn. rewrite Forall_forall in Hw. apply Hw.
    apply list_elem_of_In. apply last_Some in E as [l' ->].
    apply elem_of_app. right. apply list_elem_of_here.
  - apply last_None in E. contradiction.
Qed.

(** X6. The substitution wraps whole words only. In a text that is one run
    of word characters, a word of word characters is wrapped when it is
    the whole text and nowhere else: a word inside a longer word stays as
    it is. *)
Theorem re_sub_word_whole_words_only (word text : str) :
  word <> [] ->
  Forall (fun c => isword c = true) word ->
  Forall (fun c => isword c = true) text ->
  re_sub_word word word = strong word
  /\ (text <> word -> re_sub_word word text = text).
Proof.
  intros Hne Hw Ht. pose proof (last_wordchar word Hne Hw) as Hlast. split.
  - unfold re_sub_word. destruct word as [|c w']; [congruence|].
    cbn [sub_from]. unfold match_here, boundary.
    assert (Hs : startswith (c :: w') (c :: w') = true).
    { apply startswith_app. exists []. rewrite app_nil_r. reflexivity. }
    rewrite Hs. rewrite drop_all. cbn [head is_word_opt].
    inversion Hw as [|? ? Hc _]; subst. rewrite Hc, Hlast. cbn [xorb andb].
    rewrite sub_from_skip_all by (cbn; lia). apply app_nil_r.
  - intros Hdiff. unfold re_sub_word. destruct text as [|c s]; [reflexivity|].
    inversion Ht as [|? ? Hc Hs]; subst.
    cbn [sub_from].
    assert (Hm : match_here word None (c :: s) = false).
    { unfold match_here, boundary.
      destruct (startswith word (c :: s)) eqn:E;
        [|rewrite andb_false_r; reflexivity].
      apply startswith_app in E as [r E]. rewrite E.
      rewrite drop_app_length.
      destruct r as [|d r]; [rewrite app_nil_r in E; congruence|].
      assert (Hd : isword d = true).
      { rewrite Forall_forall in Ht. apply Ht. rewrite E.
        apply in_or_app. right. left. reflexivity. }
      cbn [head is_word_opt]. rewrite Hlast, Hd. apply andb_false_r. }
    rewrite Hm. f_equal. apply sub_from_inside_word; assumption.
Qed.

(** ** The collapse of white space *)

Lemma split_from_app_spaceless (w : str) :
  spaceless w ->
  forall cur r, split_from cur (w ++ r) = split_from (cur ++ w) r.
Proof.
  induction 1 as [|c w Hc Hw IH]; intros cur r.
  - rewrite app_nil_r. reflexivity.
  - cbn [app split_from]. rewrite Hc, IH, <- app_assoc. reflexivity.
Qed.

(** [split] undoes [join]: the words come back, with or without a space
    behind the last one. *)
Lemma split_join (ws : list str) :
  Forall (fun w => w <> [] /\ spaceless w) ws ->
  split (join [SP] ws) = ws /\ split (join [SP] ws ++ [SP]) = ws.
Proof.
  unfold split. induction 1 as [|w ws [Hne Hw] Hws IH]; [split; cbn; [reflexivity|]|].
  - rewrite isspace_SP. reflexivity.
  - destruct ws as [|w2 ws'].
    + cbn [join]. split.
      * rewrite <- (app_nil_r w) at 1. rewrite split_from_app_spaceless by assumption.
        cbn. destruct w; [congruence|reflexivity].
      * rewrite split_from_app_spaceless by assumption. cbn [app split_from].
        rewrite isspace_SP. destruct w; [congruence|reflexivity].
    + change (join [SP] (w :: w2 :: ws')) with (w ++ SP :: join [SP] (w2 :: ws')).
      destruct IH as [IH1 IH2]. split.
      * rewrite split_from_app_spaceless by assumption. cbn [app split_from].
        rewrite isspace_SP, IH1. destruct w; [congruence|reflexivity].
      * rewrite <- app_assoc. rewrite split_from_app_spaceless by assumption.
        cbn [app split_from]. rewrite isspace_SP.
        rewrite IH2. destruct w; [congruence|reflexivity].
Qed.

Lemma split_words (s : str) : Forall (fun w => w <> [] /\ spaceless w) (split s).
Proof. apply split_from_spaceless. constructor. Qed.

Lemma no_ws_run_prefix (a b : str) :
  no_ws_run (a ++ b) = true -> no_ws_run a = true.
Proof.
  induction a as [|c a IH]; [reflexivity|].
  cbn [app no_ws_run]. intros [Hc Hrest]%andb_true_iff.
  rewrite (IH Hrest), andb_true_r.
  destruct a as [|d a']; [reflexivity|exact Hc].
Qed.

Lemma join_head (ws : list str) :
  Forall (fun w => w <> [] /\ spaceless w) ws ->
  forall c, head (join [SP] ws) = Some c -> isspace c = false.
Proof.
  intros Hws c. destruct Hws as [|w ws [Hne Hw] _]; [discriminate|].
  destruct w as [|d w']; [congruence|].
  inversion Hw as [|? ? Hd _]; subst.
  destruct ws; cbn; intros [= <-]; exact Hd.
Qed.

(** X7. What [reinforce_text] returns is in the form the last line of the
    function gives: its words joined by single spaces and one space behind
    them, so collapsing its white space again changes nothing. *)
Theorem reinforce_text_is_collapsed (text : str) :
  join [SP] (split (reinforce_text text)) ++ [SP] = reinforce_text text.
Proof.
  unfold reinforce_text, reinforce_in.
  rewrite (proj2 (split_join _ (split_words _))). reflexivity.
Qed.

(** X8. What [sterilize_page] returns has its white space collapsed: no two
    white-space characters stand side by side, none stands at either end,
    and splitting and joining it again gives the same text. *)
Theorem sterilize_page_is_collapsed (page_source out : str) :
  sterilize_page page_source = inr out ->
  no_ws_run out = true
  /\ (forall c, head out = Some c -> isspace c = false)
  /\ (forall c, list.last out = Some c -> isspace c = false)
  /\ join [SP] (split out) = out.
Proof.
  unfold sterilize_page.
  destruct (html_fromstring (blank_controls page_source)) as [doc|]; [|discriminate].
  destruct (clean_document doc) as [e|d]; [discriminate|].
  intros [= <-]. set (ws := split (html_tostring d)).
  pose proof (split_words (html_tostring d)) as Hws. fold ws in Hws.
  pose proof (no_ws_run_join ws Hws) as Hrun.
  split; [eapply no_ws_run_prefix; exact Hrun|].
  split; [apply join_head; exact Hws|].
  split; [apply (no_ws_run_last _ SP Hrun isspace_SP)|].
  rewrite (proj1 (split_join ws Hws)). reflexivity.
Qed.

End WholeWords.

Lemma re_sub_word_whole_words_only_witness :
  @re_sub_word ascii_in_order (lit "words") (lit "words")
  = @strong (lit "words")
  /\ @re_sub_word ascii_in_order (lit "words") (lit "passwords") = lit "passwords".
Proof.
  destruct (@re_sub_word_whole_words_only ascii_in_order (lit "words") (lit "passwords"))
    as [H1 H2].
  - discriminate.
  - vm_compute. repeat constructor.
  - vm_compute. repeat constructor.
  - split; [exact H1|]. apply H2. discriminate.
Defined.

Lemma sterilize_page_is_collapsed_witness :
  join [SP] (@split ascii_in_order (markup "<div>a <a href='x'>b</a></div>"))
  = markup "<div>a <a href='x'>b</a></div>".
Proof.
  apply (@sterilize_page_is_collapsed ascii_in_order
           (markup "<p>a  <a href='x'>b</a></p>")).
  vm_compute. reflexivity.
Defined.

(** ** process_page: when it returns *)

Section ReturnFacts.
Context `{Interp}.

(** The pass of the anchor loop ends well on an anchor that has a parent
    and, if it has text, an href on which the [try] block does not
    raise. *)
Lemma anchor_body_not_KeyError (target_url : str) (s : store) (b : nat) (nb : node)
    (href : str) :
  s !! b = Some nb -> has_text (el_text nb) = true ->
  attr_get HREF (el_attrib nb) = Some href ->
  anchor_body target_url b s <> inl KeyError.
Proof.
  intros Hb Ht Hh. rewrite (anchor_body_text _ _ _ _ Hb Ht).
  pose proof (wrapped_lookup_a _ _ _ Hb) as Hw.
  unfold fix_href.
  rewrite (bind_inr _ _ _ _ _ (attrib_getitem_Some _ _ _ _ _ Hw Hh)).
  destruct (URLValidator default_schemes href); [discriminate| |discriminate].
  destruct (schemeful_domain target_url) as [e|root] eqn:Hroot.
  - rewrite (schemeful_domain_error _ _ Hroot). discriminate.
  - rewrite (bind_inr _ _ _ _ _ (attrib_getitem_Some _ _ _ _ _ Hw Hh)).
    unfold attrib_setitem.
    destruct (absolutize_url root href) as [url|]; [|discriminate].
    destruct (xml_compatible url); [|discriminate].
    rewrite (modify_Some _ _ _ _ Hw). discriminate.
Qed.

Lemma anchor_body_returns (target_url : str) (s : store) (b p : nat) (nb : node) :
  s !! b = Some nb -> el_parent nb = Some p -> p < length s ->
  (has_text (el_text nb) = true -> attr_get HREF (el_attrib nb) <> None) ->
  ~ unsplit target_url nb ->
  exists s', anchor_body target_url b s = inr (tt, s') /\ length s <= length s'.
Proof.
  intros Hb Hp Hlt Hhref Hsplit.
  destruct (anchor_body_outcome target_url s b p nb Hb Hp Hlt)
    as [Hret|[Hk|[_ Hv]]]; [exact Hret| |contradiction].
  exfalso. destruct (has_text (el_text nb)) eqn:Ht.
  - destruct (attr_get HREF (el_attrib nb)) as [href|] eqn:Hh;
      [|apply Hhref; reflexivity].
    exact (anchor_body_not_KeyError target_url s b nb href Hb Ht Hh Hk).
  - unfold anchor_body in Hk.
    rewrite (bind_inr _ _ _ _ _ (get_node_Some _ _ _ Hb)), Ht in Hk.
    unfold remove_from_parent in Hk.
    rewrite (bind_inr _ _ _ _ _ (get_node_Some _ _ _ Hb)), Hp in Hk.
    unfold remove in Hk.
    rewrite (bind_inr _ _ _ _ _ (get_node_Some _ _ _ Hb)), Hp in Hk.
    rewrite bool_decide_true in Hk by reflexivity.
    destruct (lookup_lt_is_Some_2 _ _ Hlt) as [pn Hpn].
    rewrite (bind_inr _ _ _ _ _ (modify_Some _ _ _ _ Hpn)) in Hk.
    assert (Hlb : b < length (<[p := with_children (remove_id b (el_children pn)) pn]> s)).
    { rewrite length_insert. eapply lookup_lt_Some; eassumption. }
    destruct (lookup_lt_is_Some_2 _ _ Hlb) as [nb1 Hnb1].
    rewrite (modify_Some _ _ _ _ Hnb1) in Hk. discriminate.
Qed.

Lemma for_each_anchors_return (target_url : str) (l : list nat) :
  NoDup l ->
  forall s,
    attached s l ->
    (forall b n, b ∈ l -> s !! b = Some n ->
       (has_text (el_text n) = true -> attr_get HREF (el_attrib n) <> None)
       /\ ~ unsplit target_url n) ->
    exists s', for_each l (anchor_body target_url) s = inr (tt, s')
               /\ length s <= length s'.
Proof.
  induction 1 as [|b l Hb Hnd IH]; intros s Hatt Hgood.
  - exists s. split; [reflexivity|lia].
  - cbn [for_each].
    destruct (Hatt b) as (nb & p & Hnb & Hp & Hlt); [apply list_elem_of_here|].
    destruct (anchor_body_returns target_url s b p nb Hnb Hp Hlt)
      as (s1 & Hrun & Hlen).
    { apply (Hgood b nb); [apply list_elem_of_here|exact Hnb]. }
    { apply (Hgood b nb); [apply list_elem_of_here|exact Hnb]. }
    rewrite (bind_inr _ _ _ _ _ Hrun).
    destruct (IH s1) as (s' & Hrun' & Hlen').
    + intros c Hc.
      destruct (Hatt c) as (nc & pc & Hnc & Hpc & Hltc);
        [apply list_elem_of_further; assumption|].
      destruct (anchor_body_frame _ _ _ _ Hrun c nc) as (nc' & Hnc' & Hslc);
        [intros ->; contradiction|assumption|].
      destruct Hslc as (_ & _ & _ & _ & Hpar).
      exists nc', pc. split; [assumption|]. split; [congruence|lia].
    + intros c n' Hc Hn'.
      assert (Hcb : c <> b) by (intros ->; contradiction).
      destruct (Hatt c) as (nc & pc & Hnc & _);
        [apply list_elem_of_further; assumption|].
      destruct (anchor_body_frame _ _ _ _ Hrun c nc Hcb Hnc) as (nc' & Hnc' & Hslc).
      assert (nc' = n') as -> by congruence.
      destruct (Hgood c nc) as [Hh Hu]; [apply list_elem_of_further, Hc|exact Hnc|].
      split.
      * destruct Hslc as (_ & Hattr & Htext & _).
        rewrite Hattr, Htext. exact Hh.
      * intros Hu'. apply Hu. eapply unsplit_same_slots; eassumption.
    + exists s'. split; [exact Hrun'|lia].
Qed.

(** X9. [process_page] returns a page for every parsed document in which
    no anchor below the root has text and either lacks an href or has an
    href on which the [try] block raises ValueError: one on which
    [urlsplit] raises inside the validator, or one the validator rejects
    while the target has no root or makes, with the href, an address with
    a character lxml refuses. *)
Theorem process_document_returns (target_url : str) (doc : element) :
  ~ inside no_href doc ->
  ~ inside (unsplittable target_url) doc ->
  exists page, process_document target_url doc = inr page.
Proof.
  intros Hgood Hsplit.
  unfold process_document. rewrite load_document, process_tree_unfold.
  set (s := flatten None 0 doc).
  assert (Hs : 0 < length s).
  { unfold s. rewrite flatten_length. destruct doc. cbn. lia. }
  destruct (for_each_anchors_return target_url _
              (NoDup_anchors_document doc) s (attached_document doc))
    as (s1 & Hrun & Hlen).
  { intros b n Hb Hn.
    destruct (anchors_below_inside doc b n Hb Hn) as [Ha Hin].
    split.
    - intros Ht Hh. apply Hgood. eapply inside_impl; [|exact Hin].
      intros tag attrib text (-> & -> & ->). repeat split; assumption.
    - intros [Ht Hh]. apply Hsplit. eapply inside_impl; [|exact Hin].
      intros tag attrib text (-> & -> & ->). repeat split; assumption. }
  fold s in Hrun. rewrite (bind_inr _ _ _ _ _ Hrun).
  unfold bind at 1. unfold iter at 1.
  destruct (for_each_elements (subtree (length s1) s1 0) s1) as (s2 & Hrun2 & Hlen2).
  { intros e He. eapply subtree_valid. exact He. }
  rewrite Hrun2.
  destruct (snapshot_root s2 0) as [out Hout]; [lia|].
  rewrite Hout. eauto.
Qed.

(** X10. On every page [process_page] returns a page or raises one of
    XMLSyntaxError, KeyError and ValueError; it never ends in the
    AttributeError of a missing parent or the TypeError of an href set to
    [None]. *)
Theorem process_page_outcomes (sterile_page target_url : str) :
  (exists page, process_page sterile_page target_url = inr page)
  \/ process_page sterile_page target_url = inl XMLSyntaxError
  \/ process_page sterile_page target_url = inl KeyError
  \/ process_page sterile_page target_url = inl ValueError.
Proof.
  unfold process_page. destruct (fromstring sterile_page) as [doc| |]; [|auto..].
  destruct (process_document_outcome target_url doc) as [Hp|[Hk|Hv]]; auto.
Qed.

End ReturnFacts.

Lemma process_document_returns_witness :
  exists page,
    @process_document ascii_in_order GOOGLE
      (Element DIV [] (Some (lit "x"))
         [Element A_TAG [(HREF, lit "/id1")] (Some (lit "me")) [] None] None)
    = inr page.
Proof.
  apply (@process_document_returns ascii_in_order GOOGLE).
  - intros Hin. inversion Hin as [? ? ? ? ? ? ? ? ? ? Hc HP|? ? ? ? ? c Hc Hd]; subst.
    + apply list_elem_of_singleton in Hc. injection Hc as -> -> -> -> ->.
      destruct HP as (_ & _ & Hh). vm_compute in Hh. discriminate.
    + apply list_elem_of_singleton in Hc. subst c.
      inversion Hd as [? ? ? ? ? ? ? ? ? ? Hc' _|? ? ? ? ? c' Hc' _]; subst;
        apply elem_of_nil in Hc'; contradiction.
  - intros Hin. inversion Hin as [? ? ? ? ? ? ? ? ? ? Hc HP|? ? ? ? ? c Hc Hd]; subst.
    + apply list_elem_of_singleton in Hc. injection Hc as -> -> -> -> ->.
      destruct HP as (_ & _ & href & Hh & Hv).
      injection Hh as <-. vm_compute in Hv. discriminate.
    + apply list_elem_of_singleton in Hc. subst c.
      inversion Hd as [? ? ? ? ? ? ? ? ? ? Hc' _|? ? ? ? ? c' Hc' _]; subst;
        apply elem_of_nil in Hc'; contradiction.
Defined.

(** ** process_page: what the anchor loop leaves alone *)

Section FrameFacts.
Context `{Interp}.

Lemma same_slots_chain (n1 n2 n3 : node) :
  same_slots n1 n2 -> same_slots n2 n3 -> same_slots n1 n3.
Proof.
  unfold same_slots. intros (?&?&?&?&?) (?&?&?&?&?). repeat split; congruence.
Qed.

(** X11. The anchor loop changes the anchors it visits and the child lists
    of their parents, nothing else: when it ends well, a node that is not
    in its list has the tag, the attributes, the text, the tail and the
    parent it had. *)
Theorem anchor_loop_leaves_other_nodes (target_url : str) (l : list nat) :
  forall (s s' : store) c n,
    for_each l (anchor_body target_url) s = inr (tt, s') ->
    c ∉ l -> s !! c = Some n ->
    exists n', s' !! c = Some n' /\ same_slots n n'.
Proof.
  induction l as [|b l IH]; intros s s' c n Hrun Hc Hn.
  - cbn in Hrun. injection Hrun as <-. exists n. split; [exact Hn|apply same_slots_refl].
  - cbn [for_each] in Hrun.
    apply bind_inr_inv in Hrun as ([] & s1 & Hb & Hrest).
    apply not_elem_of_cons in Hc as [Hcb Hcl].
    destruct (anchor_body_frame _ _ _ _ Hb c n Hcb Hn) as (n1 & Hn1 & Hs1).
    destruct (IH s1 s' c n1 Hrest Hcl Hn1) as (n' & Hn' & Hs').
    exists n'. split; [exact Hn'|]. eapply same_slots_chain; eassumption.
Qed.

Lemma attr_get_set_ne (key key' value : str) (a : list (str * str)) :
  key' <> key -> attr_get key' (attr_set key value a) = attr_get key' a.
Proof.
  intros Hne. induction a as [|[k v] a IH]; cbn [attr_set attr_get].
  - unfold str_eqb. rewrite bool_decide_false by congruence. reflexivity.
  - destruct (str_eqb k key) eqn:E; cbn [attr_get].
    + unfold str_eqb in E. apply bool_decide_eq_true in E. subst k.
      unfold str_eqb. rewrite bool_decide_false by congruence. reflexivity.
    + rewrite IH. reflexivity.
Qed.

Lemma attr_set_keys (key value : str) (a : list (str * str)) (h : str) :
  attr_get key a = Some h ->
  map fst (attr_set key value a) = map fst a.
Proof.
  induction a as [|[k v] a IH]; cbn [attr_set attr_get]; [discriminate|].
  destruct (str_eqb k key); [reflexivity|].
  intros Hh. cbn [map fst]. rewrite (IH Hh). reflexivity.
Qed.

(** X12. The pass of the anchor loop on an anchor with text and an href,
    for a target that has a root. When the [try] block raises on the href
    ([urlsplit] raises inside the validator, or the validator rejects the
    href and lxml refuses the address made of the root and the href), the
    pass raises ValueError. Otherwise the pass ends well and writes the
    href and no other attribute: tag and tail stay, the attributes keep
    their names and order, and every attribute but the href keeps its
    value. *)
Theorem anchor_pass_writes_href_only
    (target_url root : str) (s : store) (a : nat) (n : node) (href : str) :
  s !! a = Some n -> has_text (el_text n) = true ->
  attr_get HREF (el_attrib n) = Some href ->
  schemeful_domain target_url = inr root ->
  (href_raises target_url href = true ->
   anchor_body target_url a s = inl ValueError)
  /\ (href_raises target_url href = false ->
      exists s' n',
        anchor_body target_url a s = inr (tt, s')
        /\ s' !! a = Some n'
        /\ el_tag n' = el_tag n /\ el_tail n' = el_tail n
        /\ map fst (el_attrib n') = map fst (el_attrib n)
        /\ forall key, key <> HREF ->
             attr_get key (el_attrib n') = attr_get key (el_attrib n)).
Proof.
  intros Ha Ht Hh Hroot. split.
  { intros Hv. eapply anchor_body_ValueError; eassumption. }
  intros Hv.
  destruct (anchor_body_href _ _ _ _ _ _ Ha Ht Hh Hroot Hv)
    as (s' & Hrun & _ & Han & _).
  eexists. eexists. split; [exact Hrun|]. split; [exact Han|].
  cbn [el_tag el_tail el_attrib]. split; [reflexivity|]. split; [reflexivity|].
  unfold fixed_attrib. rewrite Hh.
  destruct (URLValidator default_schemes href);
    try (split; [reflexivity|]; intros key _; reflexivity).
  destruct (absolutize_url root href) as [url|];
    [|split; [reflexivity|]; intros key _; reflexivity].
  split; [eapply attr_set_keys; exact Hh|].
  intros key Hk. apply attr_get_set_ne. exact Hk.
Qed.

End FrameFacts.

Lemma anchor_loop_leaves_other_nodes_witness :
  exists n',
    [Node DIV [] (Some (lit "x")) None [] None;
     Node A_TAG [] None None [] None] !! 0 = Some n'
    /\ same_slots (Node DIV [] (Some (lit "x")) None [1] None) n'.
Proof.
  apply (@anchor_loop_leaves_other_nodes ascii_in_order GOOGLE [1]
           [Node DIV [] (Some (lit "x")) None [1] None;
            Node A_TAG [] None None [] (Some 0)]).
  - vm_compute. reflexivity.
  - intros Hin. apply list_elem_of_singleton in Hin. discriminate.
  - reflexivity.
Defined.

Lemma anchor_pass_writes_href_only_witness :
  exists s' n',
    @anchor_body ascii_in_order GOOGLE 1
      [Node DIV [] None None [1] None;
       Node A_TAG [(lit "id", lit "k"); (HREF, lit "/id1")] (Some (lit "me")) None []
         (Some 0)]
    = inr (tt, s')
    /\ s' !! 1 = Some n'
    /\ attr_get (lit "id") (el_attrib n') = Some (lit "k").
Proof.
  destruct (@anchor_pass_writes_href_only ascii_in_order GOOGLE GOOGLE
              [Node DIV [] None None [1] None;
               Node A_TAG [(lit "id", lit "k"); (HREF, lit "/id1")] (Some (lit "me"))
                 None [] (Some 0)]
              1 (Node A_TAG [(lit "id", lit "k"); (HREF, lit "/id1")] (Some (lit "me"))
                   None [] (Some 0))
              (lit "/id1") eq_refl eq_refl eq_refl eq_refl)
    as [_ Hpass].
  destruct Hpass as (s' & n' & Hrun & Hn' & _ & _ & _ & Hkeep);
    [vm_compute; reflexivity|].
  exists s', n'. split; [exact Hrun|]. split; [exact Hn'|].
  rewrite Hkeep; [reflexivity|discriminate].
Defined.

(** ** forms.py: the validator of the form field

    [URLField.default_validators = [URLValidator(schemes=['http', 'https'])]]:
    the validator the form runs on the target. *)

Definition form_schemes : list str := [lit "http"; lit "https"].

Section FormFacts.
Context `{Interp}.

Definition URLField_validator (value : str) : validation :=
  URLValidator form_schemes value.

(** X13. The validator of the form accepts no value whose scheme is not
    http or https, and whatever it accepts the validator of [process_page]
    accepts too: an anchor with text whose href would pass the form keeps
    that href. *)
Theorem form_validator_is_stricter :
  (forall value,
     URLField_validator value = Valid ->
     str_lower (before_sep (lit "://") value) ∈ [lit "http"; lit "https"]
     /\ URLValidator default_schemes value = Valid)
  /\ (forall target_url root (s : store) a n href,
        s !! a = Some n -> has_text (el_text n) = true ->
        attr_get HREF (el_attrib n) = Some href ->
        schemeful_domain target_url = inr root ->
        URLField_validator href = Valid ->
        exists s' n',
          anchor_body target_url a s = inr (tt, s')
          /\ s' !! a = Some n' /\ el_attrib n' = el_attrib n).
Proof.
  assert (Hincl : forall value,
             URLField_validator value = Valid ->
             str_lower (before_sep (lit "://") value) ∈ [lit "http"; lit "https"]
             /\ URLValidator default_schemes value = Valid).
  { intros value [Hs Hw]%URLValidator_Valid. split; [exact Hs|].
    apply URLValidator_Valid. split; [|exact Hw].
    unfold form_schemes in Hs. unfold default_schemes.
    apply elem_of_cons in Hs as [->|Hs]; [apply list_elem_of_here|].
    apply list_elem_of_singleton in Hs as ->.
    apply list_elem_of_further, list_elem_of_here. }
  split; [exact Hincl|].
  intros target_url root s a n href Ha Ht Hh Hroot Hform.
  destruct (Hincl href Hform) as [_ Hv].
  destruct (anchor_body_href _ _ _ _ _ _ Ha Ht Hh Hroot) as (s' & Hrun & _ & Han & _);
    [unfold href_raises; rewrite Hv; reflexivity|].
  unfold fixed_attrib in Han. rewrite Hh, Hv in Han.
  eexists. eexists. split; [exact Hrun|]. split; [exact Han|]. reflexivity.
Qed.

End FormFacts.

Lemma form_validator_is_stricter_witness :
  lit "https" ∈ [lit "http"; lit "https"]
  /\ @URLValidator ascii_in_order default_schemes (lit "HTTPS://google.com") = Valid.
Proof.
  apply (proj1 (@form_validator_is_stricter ascii_in_order) (lit "HTTPS://google.com")).
  vm_compute. reflexivity.
Defined.

(** ** schemeful_domain: the root of a root *)

Lemma between_spec (lo hi c : N) :
  Ascii7.between lo hi c = true <-> (lo <= c <= hi)%N.
Proof.
  unfold Ascii7.between. rewrite andb_true_iff, !N.leb_le. reflexivity.
Qed.

Lemma scheme_char_spec (c : char) :
  scheme_char c = true
  <-> ((65 <= c <= 90) \/ (97 <= c <= 122) \/ (48 <= c <= 57)
       \/ c = 43 \/ c = 45 \/ c = 46)%N.
Proof.
  unfold scheme_char, Ascii7.isalpha, Ascii7.isdigit, Ascii7.isupper, Ascii7.islower.
  rewrite !orb_true_iff, !between_spec, !N.eqb_eq. tauto.
Qed.

Lemma scheme_char_tolower (c : char) :
  scheme_char c = true ->
  scheme_char (Ascii7.tolower c) = true
  /\ Ascii7.tolower (Ascii7.tolower c) = Ascii7.tolower c
  /\ Ascii7.tolower c <> COLON.
Proof.
  intros Hc. apply scheme_char_spec in Hc.
  assert (Hlow : Ascii7.isupper (Ascii7.tolower c) = false).
  { apply not_true_iff_false. unfold Ascii7.tolower, Ascii7.isupper.
    destruct (Ascii7.between 65 90 c) eqn:E.
    - apply between_spec in E. rewrite between_spec. lia.
    - rewrite E. discriminate. }
  split; [|split].
  - apply scheme_char_spec. unfold Ascii7.tolower, Ascii7.isupper.
    destruct (Ascii7.between 65 90 c) eqn:E; [|exact Hc].
    apply between_spec in E. lia.
  - unfold Ascii7.tolower at 1. rewrite Hlow. reflexivity.
  - unfold Ascii7.tolower, Ascii7.isupper, COLON.
    destruct (Ascii7.between 65 90 c) eqn:E.
    + apply between_spec in E. lia.
    + apply not_true_iff_false in E. rewrite between_spec in E. lia.
Qed.

Lemma cut_at_fresh (d : char) (a b : str) :
  d ∉ a -> cut_at d (a ++ d :: b) = Some (a, b).
Proof.
  induction a as [|c a IH]; intros Hd; cbn [app cut_at].
  - rewrite N.eqb_refl. reflexivity.
  - destruct (N.eqb_spec c d) as [->|_].
    + exfalso. apply Hd, list_elem_of_here.
    + rewrite IH; [reflexivity|]. intros Hin. apply Hd, list_elem_of_further, Hin.
Qed.

Lemma netloc_of_again (s rest : str) :
  netloc_of (netloc_of s ++ SLASH :: rest) = netloc_of s.
Proof.
  induction s as [|c s IH]; cbn [netloc_of]; [reflexivity|].
  destruct (mem_char c (lit "/?#")) eqn:E; [reflexivity|].
  cbn [app netloc_of]. rewrite E, IH. reflexivity.
Qed.

(** The scheme [split_scheme] returns, when there is one: [http] itself or
    lower-case scheme characters. *)
Lemma split_scheme_scheme (url scheme rest : str) :
  split_scheme url = (scheme, rest) -> scheme <> [] ->
  Forall (fun c => scheme_char c = true /\ Ascii7.tolower c = c /\ c <> COLON) scheme.
Proof.
  unfold split_scheme.
  destruct (cut_at COLON url) as [[[|x pre] r]|] eqn:E;
    try (intros [= <- <-] Hne; congruence).
  destruct (str_eqb (x :: pre) (lit "http")) eqn:Eh.
  - intros [= <- <-] _. unfold str_eqb in Eh. apply bool_decide_eq_true in Eh. rewrite Eh.
    repeat constructor; vm_compute; congruence.
  - destruct (forallb scheme_char (x :: pre)) eqn:Ef;
      [|intros [= <- <-] Hne; congruence].
    destruct (match r with [] => false | _ => true end && forallb Ascii7.isdigit r);
      [intros [= <- <-] Hne; congruence|].
    intros [= <- <-] _. unfold Ascii7.str_lower.
    apply (proj2 (Forall_map Ascii7.tolower _ (x :: pre))).
    apply Forall_forall. intros c Hc.
    apply scheme_char_tolower.
    rewrite forallb_forall in Ef. apply Ef. exact Hc.
Qed.

Lemma urlparse_again (target scheme netloc : str) :
  urlparse target = inr (scheme, netloc) -> scheme <> [] ->
  urlparse (scheme ++ lit "://" ++ netloc ++ lit "/") = inr (scheme, netloc).
Proof.
  unfold urlparse.
  destruct (split_scheme target) as [sch rest] eqn:Es.
  intros Hu Hne.
  assert (Hsch : sch = scheme).
  { destruct (startswith (lit "//") rest); [|congruence].
    destruct (xorb _ _); [discriminate|congruence]. }
  subst sch.
  pose proof (split_scheme_scheme _ _ _ Es Hne) as Hall.
  assert (Hnet : netloc = netloc_of (drop 2 rest) /\
                 xorb (mem_char 91%N netloc) (mem_char 93%N netloc) = false
                 \/ netloc = []).
  { destruct (startswith (lit "//") rest); [|right; congruence].
    destruct (xorb _ _) eqn:Ex; [discriminate|].
    left. injection Hu as Hn. rewrite <- Hn. split; [reflexivity|exact Ex]. }
  assert (Hsplit : split_scheme (scheme ++ lit "://" ++ netloc ++ lit "/")
                   = (scheme, lit "//" ++ netloc ++ lit "/")).
  { unfold split_scheme.
    change (scheme ++ lit "://" ++ netloc ++ lit "/")
      with (scheme ++ COLON :: (lit "//" ++ netloc ++ lit "/")).
    rewrite cut_at_fresh.
    2:{ intros Hin. rewrite list.Forall_forall in Hall.
        destruct (Hall _ Hin) as (_ & _ & Hc). congruence. }
    destruct scheme as [|c pre]; [congruence|].
    destruct (str_eqb (c :: pre) (lit "http")); [reflexivity|].
    assert (Hf : forallb scheme_char (c :: pre) = true).
    { apply forallb_forall. intros x Hx. apply list_elem_of_In in Hx.
      rewrite list.Forall_forall in Hall. apply (Hall _ Hx). }
    rewrite Hf.
    assert (Hd : forallb Ascii7.isdigit (lit "//" ++ netloc ++ lit "/") = false)
      by reflexivity.
    rewrite Hd, andb_false_r.
    f_equal. unfold Ascii7.str_lower.
    rewrite <- (map_id (c :: pre)) at 2. apply map_ext_Forall.
    eapply list.Forall_impl; [exact Hall|]. cbn beta. intros x (_ & Hx & _). exact Hx. }
  rewrite Hsplit.
  change (startswith (lit "//") (lit "//" ++ netloc ++ lit "/")) with true.
  cbn match.
  change (drop 2 (lit "//" ++ netloc ++ lit "/")) with (netloc ++ SLASH :: []).
  destruct Hnet as [[Hn Hx]| ->].
  - rewrite Hn, netloc_of_again, <- Hn, Hx. reflexivity.
  - reflexivity.
Qed.

(** X15. The root of a target that has a scheme is its own root:
    [schemeful_domain] applied to what it has returned returns the same
    text again, and raises nothing. *)
Theorem schemeful_domain_of_root (target scheme netloc : str) :
  urlparse target = inr (scheme, netloc) -> scheme <> [] ->
  exists root,
    schemeful_domain target = inr root
    /\ schemeful_domain root = inr root.
Proof.
  intros Hu Hne. exists (scheme ++ lit "://" ++ netloc ++ lit "/").
  unfold schemeful_domain. rewrite Hu.
  rewrite (urlparse_again _ _ _ Hu Hne). split; reflexivity.
Qed.

Lemma schemeful_domain_of_root_witness :
  exists root,
    schemeful_domain (lit "HTTPS://google.com/a?b#c") = inr root
    /\ schemeful_domain root = inr root.
Proof.
  apply (schemeful_domain_of_root (lit "HTTPS://google.com/a?b#c")
           (lit "https") (lit "google.com")).
  - vm_compute. reflexivity.
  - discriminate.
Defined.

(** ** The two loops of process_page as a function on documents

    [rep s i e F]: below node [i] the store [s] holds the document [e], on
    the nodes [F] in document order. *)

Inductive rep (s : store) : nat -> element -> list nat -> Prop :=
| rep_node i n kids F :
    s !! i = Some n ->
    reps s (el_children n) kids F ->
    rep s i (Element (el_tag n) (el_attrib n) (el_text n) kids (el_tail n)) (i :: F)
with reps (s : store) : list nat -> list element -> list nat -> Prop :=
| reps_nil : reps s [] [] []
| reps_cons i e F l es Fs :
    rep s i e F -> reps s l es Fs -> reps s (i :: l) (e :: es) (F ++ Fs).

Scheme rep_mut := Minimality for rep Sort Prop
  with reps_mut := Minimality for reps Sort Prop.
Combined Scheme rep_reps_mut from rep_mut, reps_mut.

Lemma reps_app (s : store) l1 es1 F1 l2 es2 F2 :
  reps s l1 es1 F1 -> reps s l2 es2 F2 ->
  reps s (l1 ++ l2) (es1 ++ es2) (F1 ++ F2).
Proof.
  induction 1 as [|i e F l es Fs Hr Hl IH]; intros H2; [exact H2|].
  cbn [app]. rewrite <- app_assoc. constructor; [exact Hr|apply IH, H2].
Qed.

(** A store that agrees with [s] on the nodes of a document holds the
    same document. *)
Lemma rep_stable (s s' : store) :
  (forall i e F, rep s i e F ->
     (forall j, j ∈ F -> s' !! j = s !! j) -> rep s' i e F)
  /\ (forall l es F, reps s l es F ->
        (forall j, j ∈ F -> s' !! j = s !! j) -> reps s' l es F).
Proof.
  apply rep_reps_mut.
  - intros i n kids F Hn _ IH Hagree. constructor.
    + rewrite Hagree by apply list_elem_of_here. exact Hn.
    + apply IH. intros j Hj. apply Hagree, list_elem_of_further, Hj.
  - intros _. constructor.
  - intros i e F l es Fs _ IHe _ IHl Hagree. constructor.
    + apply IHe. intros j Hj. apply Hagree, elem_of_app. auto.
    + apply IHl. intros j Hj. apply Hagree, elem_of_app. auto.
Qed.

Lemma rep_length (s : store) :
  (forall i e F, rep s i e F -> length F = size e)
  /\ (forall l es F, reps s l es F -> length F = list_sum (map size es)).
Proof.
  apply rep_reps_mut.
  - intros i n kids F _ _ IH. cbn [length size]. rewrite IH. reflexivity.
  - reflexivity.
  - intros i e F l es Fs _ IHe _ IHl.
    rewrite length_app, IHe, IHl. reflexivity.
Qed.

Lemma rep_valid (s : store) :
  (forall i e F, rep s i e F -> forall j, j ∈ F -> j < length s)
  /\ (forall l es F, reps s l es F -> forall j, j ∈ F -> j < length s).
Proof.
  apply rep_reps_mut.
  - intros i n kids F Hn _ IH j [->|Hj]%elem_of_cons.
    + eapply lookup_lt_Some; eassumption.
    + apply IH, Hj.
  - intros j Hj. apply elem_of_nil in Hj. contradiction.
  - intros i e F l es Fs _ IHe _ IHl j [Hj|Hj]%elem_of_app; auto.
Qed.

(** With enough depth, [snapshot] reads the document and [subtree] its
    nodes. *)
Lemma rep_snapshot (s : store) :
  (forall i e F, rep s i e F ->
     forall d, size e <= d -> snapshot d s i = Some e /\ subtree d s i = F)
  /\ (forall l es F, reps s l es F ->
        forall d, list_sum (map size es) <= d ->
        omap (snapshot d s) l = es /\ flat_map (subtree d s) l = F).
Proof.
  apply rep_reps_mut.
  - intros i n kids F Hn _ IH d Hd. cbn [size] in Hd.
    destruct d as [|d]; [lia|]. cbn [snapshot subtree]. rewrite Hn.
    destruct (IH d) as [-> ->]; [lia|]. auto.
  - intros d _. auto.
  - intros i e F l es Fs _ IHe _ IHl d Hd.
    cbn [map] in Hd.
    change (list_sum (size e :: map size es))
      with (size e + list_sum (map size es)) in Hd.
    destruct (IHe d) as [He HF]; [lia|].
    destruct (IHl d) as [Hes HFs]; [lia|].
    cbn [omap list_omap flat_map]. rewrite He, HF, HFs.
    split; [|reflexivity]. f_equal. exact Hes.
Qed.

Lemma NoDup_below (n : nat) (l : list nat) :
  NoDup l -> (forall j, j ∈ l -> j < n) -> length l <= n.
Proof.
  intros Hnd Hlt.
  transitivity (length (seq 0 n)); [|rewrite length_seq; lia].
  apply NoDup_incl_length.
  - apply NoDup_ListNoDup. exact Hnd.
  - intros j Hj. apply in_seq. apply list_elem_of_In, Hlt in Hj. lia.
Qed.

Lemma with_children_same (n : node) : with_children (el_children n) n = n.
Proof. destruct n. reflexivity. Qed.

Lemma size_pos (e : element) : 1 <= size e.
Proof. destruct e. cbn. lia. Qed.

Lemma kid_ids_range (l : list element) :
  forall j c, c ∈ kid_ids j l -> j <= c < j + list_sum (map size l).
Proof.
  induction l as [|e l IH]; intros j c Hc; cbn [kid_ids] in Hc.
  - apply elem_of_nil in Hc. contradiction.
  - cbn [map].
    change (list_sum (size e :: map size l)) with (size e + list_sum (map size l)).
    pose proof (size_pos e).
    apply elem_of_cons in Hc as [->|Hc]; [lia|].
    apply IH in Hc. lia.
Qed.

Lemma remove_id_absent (j : nat) (l : list nat) : j ∉ l -> remove_id j l = l.
Proof.
  unfold remove_id. induction l as [|x l IH]; intros Hj; [reflexivity|].
  rewrite filter_cons_True.
  - f_equal. apply IH. intros Hin. apply Hj, list_elem_of_further, Hin.
  - intros ->. apply Hj, list_elem_of_here.
Qed.

Lemma remove_id_middle (j : nat) (l1 l2 : list nat) :
  j ∉ l1 -> j ∉ l2 -> remove_id j (l1 ++ j :: l2) = l1 ++ l2.
Proof.
  intros H1 H2. unfold remove_id. rewrite list.filter_app.
  fold (remove_id j l1). rewrite (remove_id_absent j l1 H1).
  rewrite filter_cons_False by (intros Hne; apply Hne; reflexivity).
  fold (remove_id j l2). rewrite (remove_id_absent j l2 H2). reflexivity.
Qed.

Lemma for_each_app_inv {A} (l1 l2 : list A) (body : A -> M unit) :
  forall s s',
    for_each (l1 ++ l2) body s = inr (tt, s') ->
    exists s1, for_each l1 body s = inr (tt, s1)
               /\ for_each l2 body s1 = inr (tt, s').
Proof.
  induction l1 as [|x l1 IH]; intros s s' Hrun; cbn [app for_each] in *.
  - exists s. auto.
  - apply bind_inr_inv in Hrun as (u & s1 & Hx & Hrest).
    destruct (IH _ _ Hrest) as (s2 & H1 & H2).
    exists s2. split; [|exact H2].
    rewrite (bind_inr _ _ _ _ _ Hx). exact H1.
Qed.

(** The nodes [ns] lie in the store from index [i] on. *)
Definition seg (s : store) (i : nat) (ns : list node) : Prop :=
  forall k n, ns !! k = Some n -> s !! (i + k) = Some n.

Lemma seg_app (s : store) (i : nat) (a b : list node) :
  seg s i (a ++ b) -> seg s i a /\ seg s (i + length a) b.
Proof.
  intros Hs. split; intros k n Hk.
  - apply Hs. apply lookup_app_l_Some. exact Hk.
  - rewrite <- Nat.add_assoc. apply Hs.
    rewrite lookup_app_r by lia.
    replace (length a + k - length a) with k by lia. exact Hk.
Qed.

Lemma seg_cons (s : store) (i : nat) (n : node) (ns : list node) :
  seg s i (n :: ns) -> s !! i = Some n /\ seg s (S i) ns.
Proof.
  intros Hs. split.
  - specialize (Hs 0 n eq_refl). rewrite Nat.add_0_r in Hs. exact Hs.
  - intros k n' Hk. replace (S i + k) with (i + S k) by lia. apply Hs. exact Hk.
Qed.

Lemma seg_frame (s s' : store) (i : nat) (ns : list node) :
  seg s i ns ->
  (forall k, i <= k < i + length ns -> s' !! k = s !! k) ->
  seg s' i ns.
Proof.
  intros Hs Hagree k n Hk. rewrite Hagree; [apply Hs, Hk|].
  apply lookup_lt_Some in Hk. lia.
Qed.

Section Refinement.
Context `{Interp}.

(** What the anchor loop makes of an element below the root: an anchor
    with text gets an [em] for its text and its href fixed, an anchor
    without text goes with everything it holds and its tail, any other
    element stays. *)
Fixpoint link (root : str) (e : element) : list element :=
  match e with
  | Element tag attrib text children tail =>
      if str_eqb tag A_TAG then
        if has_text text then
          [Element tag (fixed_attrib root attrib) None
             (Element EM [] text [] None :: flat_map (link root) children) tail]
        else []
      else [Element tag attrib text (flat_map (link root) children) tail]
  end.

(** The root is no match of [.//a]. *)
Definition link_document (root : str) (doc : element) : element :=
  match doc with
  | Element tag attrib text children tail =>
      Element tag attrib text (flat_map (link root) children) tail
  end.

(** What the loop over all elements makes of a document. *)
Fixpoint emphasise (e : element) : element :=
  match e with
  | Element tag attrib text children tail =>
      Element tag attrib (reinforce_slot text) (map emphasise children)
        (reinforce_slot tail)
  end.

(** The anchors without text. *)
Definition blank (e : element) : bool :=
  match e with
  | Element tag _ text _ _ =>
      if str_eqb tag A_TAG then negb (has_text text) else false
  end.

Lemma rep_emphasise (s s' : store) :
  (forall i e F, rep s i e F ->
     (forall j n, j ∈ F -> s !! j = Some n -> s' !! j = Some (reinforced n)) ->
     rep s' i (emphasise e) F)
  /\ (forall l es F, reps s l es F ->
        (forall j n, j ∈ F -> s !! j = Some n -> s' !! j = Some (reinforced n)) ->
        reps s' l (map emphasise es) F).
Proof.
  apply rep_reps_mut.
  - intros i n kids F Hn _ IH Hre.
    apply (rep_node s' i (reinforced n) (map emphasise kids) F).
    + apply Hre; [apply list_elem_of_here|exact Hn].
    + apply IH. intros j n' Hj. apply Hre, list_elem_of_further, Hj.
  - intros _. constructor.
  - intros i e F l es Fs _ IHe _ IHl Hre. cbn [map]. constructor.
    + apply IHe. intros j n' Hj. apply Hre, elem_of_app. auto.
    + apply IHl. intros j n' Hj. apply Hre, elem_of_app. auto.
Qed.

Section Passes.
Variables (target_url root : str).
Hypothesis Hroot : schemeful_domain target_url = inr root.

(** The store the anchors were selected in. *)
Variable s0 : store.

Definition selected (i len : nat) : list nat :=
  filter (fun k => is_anchor s0 k = true) (seq i len).

Lemma selected_app (i a b : nat) :
  selected i (a + b) = selected i a ++ selected (i + a) b.
Proof. unfold selected. rewrite seq_app. apply list.filter_app. Qed.

(** The passes of the anchor loop on the anchors of one element [e] that
    lies at index [i] below the node [p]. *)
Definition pass_ok (e : element) : Prop :=
  forall p i (s s' : store) pn,
    seg s0 i (flatten (Some p) i e) -> seg s i (flatten (Some p) i e) ->
    p < i -> i + size e <= length s ->
    s !! p = Some pn ->
    for_each (selected i (size e)) (anchor_body target_url) s = inr (tt, s') ->
    length s <= length s'
    /\ (forall k, k < length s -> k < i \/ i + size e <= k -> k <> p ->
          s' !! k = s !! k)
    /\ s' !! p
       = Some (with_children
                 (if blank e then remove_id i (el_children pn) else el_children pn) pn)
    /\ exists F,
         reps s' (if blank e then [] else [i]) (link root e) F
         /\ (forall k, k ∈ F -> i <= k < i + size e \/ length s <= k < length s')
         /\ NoDup F.

Lemma pass_children (l : list element) :
  Forall pass_ok l ->
  forall p j (s s' : store) pn done,
    seg s0 j (flatten_all (Some p) j l) -> seg s j (flatten_all (Some p) j l) ->
    p < j -> j + list_sum (map size l) <= length s ->
    s !! p = Some pn -> el_children pn = done ++ kid_ids j l ->
    (forall c, c ∈ done -> c < j \/ j + list_sum (map size l) <= c) ->
    for_each (selected j (list_sum (map size l))) (anchor_body target_url) s
    = inr (tt, s') ->
    length s <= length s'
    /\ (forall k, k < length s -> k < j \/ j + list_sum (map size l) <= k -> k <> p ->
          s' !! k = s !! k)
    /\ exists kept F,
         s' !! p = Some (with_children (done ++ kept) pn)
         /\ reps s' kept (flat_map (link root) l) F
         /\ (forall k, k ∈ F ->
               j <= k < j + list_sum (map size l) \/ length s <= k < length s')
         /\ NoDup F.
Proof.
  induction 1 as [|c l Hc _ IH];
    intros p j s s' pn done Hs0 Hs Hpj Hlen Hp Hkids Hdone Hrun.
  - cbn in Hrun. injection Hrun as <-.
    split; [lia|]. split; [reflexivity|].
    exists [], []. cbn [kid_ids] in Hkids. rewrite app_nil_r in *.
    split; [rewrite <- Hkids, with_children_same; exact Hp|].
    split; [constructor|]. split; [|constructor].
    intros k Hk. apply elem_of_nil in Hk. contradiction.
  - cbn [map flatten_all kid_ids flat_map] in *.
    change (list_sum (size c :: map size l))
      with (size c + list_sum (map size l)) in *.
    pose proof (size_pos c) as Hpos.
    rewrite selected_app in Hrun.
    apply for_each_app_inv in Hrun as (s1 & Hrun1 & Hrun2).
    apply seg_app in Hs0 as [Hs0c Hs0l]. apply seg_app in Hs as [Hsc Hsl].
    rewrite flatten_length in Hs0l, Hsl.
    destruct (Hc p j s s1 pn Hs0c Hsc Hpj ltac:(lia) Hp Hrun1)
      as (Hlen1 & Hframe1 & Hp1 & Fc & Hrepc & HFc & HndFc).
    set (done1 := done ++ (if blank c then [] else [j])).
    assert (Hkids1 : (if blank c then remove_id j (el_children pn) else el_children pn)
                     = done1 ++ kid_ids (j + size c) l).
    { unfold done1. rewrite Hkids. destruct (blank c).
      - rewrite app_nil_r. apply remove_id_middle.
        + intros Hin. apply Hdone in Hin. lia.
        + intros Hin. apply kid_ids_range in Hin. lia.
      - rewrite <- app_assoc. reflexivity. }
    destruct (IH p (j + size c) s1 s'
                (with_children
                   (if blank c then remove_id j (el_children pn) else el_children pn) pn)
                done1 Hs0l) as (Hlen2 & Hframe2 & kept & F & Hp2 & Hrep & HF & HndF).
    + eapply seg_frame; [exact Hsl|].
      intros k Hk. rewrite flatten_all_length' in Hk.
      apply Hframe1; lia.
    + lia.
    + lia.
    + exact Hp1.
    + cbn [with_children el_children]. exact Hkids1.
    + intros x Hx. unfold done1 in Hx. apply elem_of_app in Hx as [Hx|Hx].
      * apply Hdone in Hx. lia.
      * destruct (blank c); [apply elem_of_nil in Hx; contradiction|].
        apply list_elem_of_singleton in Hx. lia.
    + exact Hrun2.
    + split; [lia|]. split.
      { intros k Hk Hout Hkp. rewrite Hframe2 by lia. apply Hframe1; lia. }
      exists ((if blank c then [] else [j]) ++ kept), (Fc ++ F).
      split.
      { rewrite Hp2. unfold done1. rewrite <- app_assoc.
        destruct pn. reflexivity. }
      split.
      { apply reps_app; [|exact Hrep].
        apply (proj2 (rep_stable s1 s') _ _ _ Hrepc).
        intros k Hk. apply HFc in Hk. apply Hframe2; lia. }
      split.
      { intros k [Hk|Hk]%elem_of_app; [apply HFc in Hk|apply HF in Hk]; lia. }
      apply list.NoDup_app. split; [exact HndFc|]. split; [|exact HndF].
      intros k Hk1 Hk2. apply HFc in Hk1. apply HF in Hk2. lia.
Qed.

Lemma selected_S (i len : nat) (n : node) :
  s0 !! i = Some n ->
  selected i (S len)
  = (if str_eqb (el_tag n) A_TAG then [i] else []) ++ selected (S i) len.
Proof.
  intros Hn. unfold selected. cbn [seq].
  assert (E : is_anchor s0 i = str_eqb (el_tag n) A_TAG).
  { unfold is_anchor. rewrite Hn. reflexivity. }
  destruct (str_eqb (el_tag n) A_TAG).
  - rewrite filter_cons_True by exact E. reflexivity.
  - rewrite filter_cons_False by (rewrite E; discriminate). reflexivity.
Qed.

Lemma pass_element (e : element) : pass_ok e.
Proof.
  induction e as [tag attrib text children tail IH] using element_rect_children.
  intros p i s s' pn Hs0 Hs Hpi Hlen Hp Hrun.
  rewrite flatten_unfold in Hs0, Hs.
  apply seg_cons in Hs0 as [H0i Hs0k]. apply seg_cons in Hs as [Hi Hsk].
  cbn [size] in *.
  set (kids := kid_ids (S i) children) in *.
  set (n := Node tag attrib text tail kids (Some p)) in *.
  set (sz := list_sum (map size children)) in *.
  rewrite (selected_S _ _ _ H0i) in Hrun. cbn [el_tag n] in Hrun.
  cbn [blank link].
  destruct (str_eqb tag A_TAG) eqn:Etag.
  - apply for_each_app_inv in Hrun as (s1 & Hrun1 & Hrun2).
    cbn [for_each] in Hrun1.
    apply bind_inr_inv in Hrun1 as ([] & s1' & Hbody & Hret).
    injection Hret as ->.
    destruct (has_text text) eqn:Ht; cbn [negb].
    + (* an anchor with text *)
      destruct (attr_get HREF attrib) as [href|] eqn:Hh.
      2:{ rewrite (anchor_body_KeyError target_url s i n Hi Ht Hh) in Hbody.
          discriminate. }
      assert (Hv : href_raises target_url href = false).
      { destruct (href_raises target_url href) eqn:Hv; [|reflexivity].
        rewrite (anchor_body_ValueError target_url s i n href Hi Ht Hh Hv) in Hbody.
        discriminate. }
      destruct (anchor_body_href target_url root s i n href Hi Ht Hh Hroot Hv)
        as (s1x & Hrunx & Hem & Hnode & Hother).
      assert (s1x = s1) as -> by congruence.
      cbn [n el_tag el_attrib el_text el_tail el_children el_parent] in Hem, Hnode.
      assert (Hlen1 : length s < length s1) by (eapply lookup_lt_Some; exact Hem).
      assert (Hseg1 : seg s1 (S i) (flatten_all (Some i) (S i) children)).
      { eapply seg_frame; [exact Hsk|].
        intros k Hk. rewrite flatten_all_length' in Hk. fold sz in Hk.
        apply Hother; lia. }
      destruct (pass_children children IH i (S i) s1 s' _ [length s] Hs0k Hseg1
                  ltac:(lia) ltac:(fold sz; lia) Hnode eq_refl)
        as (Hlen2 & Hframe2 & kept & F & Hp2 & Hrep & HF & HndF).
      * intros c Hc. apply list_elem_of_singleton in Hc. fold sz. lia.
      * exact Hrun2.
      * fold sz in Hframe2, HF.
        assert (Hem' : s' !! length s
                       = Some (Node EM [] text None [] (Some i))).
        { rewrite Hframe2 by lia. exact Hem. }
        split; [lia|]. split.
        { intros k Hk Hout Hkp. rewrite Hframe2 by lia. apply Hother; lia. }
        split.
        { rewrite Hframe2 by lia. rewrite Hother by lia.
          rewrite with_children_same. exact Hp. }
        exists (i :: length s :: F). split.
        { rewrite <- (app_nil_r (i :: length s :: F)).
          constructor; [|constructor].
          pose proof (rep_node s' i _
                        (Element EM [] text [] None :: flat_map (link root) children)
                        (length s :: F) Hp2) as R.
          cbn [with_children el_tag el_attrib el_text el_tail el_children] in R.
          apply R.
          change (length s :: F) with ([length s] ++ F).
          constructor; [|exact Hrep].
          apply (rep_node s' (length s) _ [] [] Hem'). constructor. }
        split.
        { intros k Hk. apply elem_of_cons in Hk as [->|Hk]; [lia|].
          apply elem_of_cons in Hk as [->|Hk]; [lia|].
          apply HF in Hk. lia. }
        constructor.
        { intros Hk. apply elem_of_cons in Hk as [Hk|Hk]; [lia|].
          apply HF in Hk. lia. }
        constructor; [|exact HndF].
        intros Hk. apply HF in Hk. lia.
    + (* an anchor without text *)
      assert (Hip : p <> i) by lia.
      rewrite (anchor_body_blank target_url s i p n pn Hi Ht eq_refl Hip Hp) in Hbody.
      injection Hbody as <-.
      assert (Hlp : p < length s) by (eapply lookup_lt_Some; exact Hp).
      assert (Hother : forall k, k <> i -> k <> p ->
                         unlinked s i p n pn !! k = s !! k).
      { intros k Hki Hkp. unfold unlinked.
        rewrite !list_lookup_insert_ne by congruence. reflexivity. }
      assert (Hnode : unlinked s i p n pn !! i = Some (with_parent None n)).
      { unfold unlinked. apply list_lookup_insert_eq.
        rewrite length_insert. lia. }
      assert (Hpar : unlinked s i p n pn !! p
                     = Some (with_children (remove_id i (el_children pn)) pn)).
      { unfold unlinked. rewrite list_lookup_insert_ne by lia.
        apply list_lookup_insert_eq. exact Hlp. }
      assert (Hlen1 : length (unlinked s i p n pn) = length s).
      { unfold unlinked. rewrite !length_insert. reflexivity. }
      assert (Hseg1 : seg (unlinked s i p n pn) (S i)
                        (flatten_all (Some i) (S i) children)).
      { eapply seg_frame; [exact Hsk|].
        intros k Hk. rewrite flatten_all_length' in Hk. fold sz in Hk.
        apply Hother; lia. }
      destruct (pass_children children IH i (S i) _ s' _ [] Hs0k Hseg1
                  ltac:(lia) ltac:(rewrite Hlen1; fold sz; lia) Hnode eq_refl)
        as (Hlen2 & Hframe2 & kept & F & Hp2 & Hrep & HF & HndF).
      * intros c Hc. apply elem_of_nil in Hc. contradiction.
      * exact Hrun2.
      * fold sz in Hframe2. rewrite Hlen1 in *.
        split; [lia|]. split.
        { intros k Hk Hout Hkp. rewrite Hframe2 by lia. apply Hother; lia. }
        split.
        { rewrite Hframe2 by lia. exact Hpar. }
        exists []. split; [constructor|]. split; [|constructor].
        intros k Hk. apply elem_of_nil in Hk. contradiction.
  - (* no anchor *)
    cbn [app] in Hrun.
    destruct (pass_children children IH i (S i) s s' n [] Hs0k Hsk
                ltac:(lia) ltac:(fold sz; lia) Hi eq_refl)
      as (Hlen2 & Hframe2 & kept & F & Hp2 & Hrep & HF & HndF).
    + intros c Hc. apply elem_of_nil in Hc. contradiction.
    + exact Hrun.
    + fold sz in Hframe2, HF.
      split; [lia|]. split.
      { intros k Hk Hout Hkp. apply Hframe2; lia. }
      split.
      { rewrite Hframe2 by lia. rewrite with_children_same. exact Hp. }
      exists (i :: F). split.
      { rewrite <- (app_nil_r (i :: F)). constructor; [|constructor].
        apply (rep_node s' i _ (flat_map (link root) children) F Hp2).
        exact Hrep. }
      split.
      { intros k Hk. apply elem_of_cons in Hk as [->|Hk]; [lia|].
        apply HF in Hk. lia. }
      constructor; [|exact HndF].
      intros Hk. apply HF in Hk. lia.
Qed.

End Passes.

(** An anchor with text that stops [process_page]: it has no href, or an
    href on which the [try] block raises ValueError. *)
Definition stops (target_url : str)
    (tag : str) (attrib : list (str * str)) (text : option str) : Prop :=
  no_href tag attrib text \/ unsplittable target_url tag attrib text.

(** The two loops of [process_page] are a function on documents. With a
    target that has a root and a document in which no anchor below the
    root stops the anchor loop, the page returned is the text of the
    document in which every anchor below the root that has text holds an
    [em] with that text in front of its content and has its href fixed,
    every anchor below the root without text is gone with its content and
    its tail, and every text and tail that is left has been through
    [reinforce_text] once. *)
Lemma process_document_link (target_url root : str) (doc : element) :
  schemeful_domain target_url = inr root ->
  ~ inside (stops target_url) doc ->
  process_document target_url doc
  = inr (unescape (tostring (emphasise (link_document root doc)))).
Proof.
  intros Hroot Hgood.
  unfold process_document. rewrite load_document, process_tree_unfold.
  set (s := flatten None 0 doc).
  destruct (for_each_anchors_return target_url _
              (NoDup_anchors_document doc) s (attached_document doc))
    as (s1 & Hrun & Hlen).
  { intros b n Hb Hn.
    destruct (anchors_below_inside doc b n Hb Hn) as [Ha Hin].
    split.
    - intros Ht Hh. apply Hgood. eapply inside_impl; [|exact Hin].
      intros tag attrib text (-> & -> & ->). left. repeat split; assumption.
    - intros [Ht Hh]. apply Hgood. eapply inside_impl; [|exact Hin].
      intros tag attrib text (-> & -> & ->). right. repeat split; assumption. }
  fold s in Hrun. rewrite (bind_inr _ _ _ _ _ Hrun).
  unfold bind at 1. unfold iter at 1.
  (* the store after the anchor loop *)
  assert (Hrep : exists F, rep s1 0 (link_document root doc) (0 :: F)
                           /\ NoDup (0 :: F)).
  { unfold s in Hrun. rewrite anchors_below_document in Hrun. fold s in Hrun.
    destruct doc as [tag attrib text children tail].
    cbn [size] in Hrun. rewrite Nat.sub_succ, Nat.sub_0_r in Hrun.
    assert (Hs : s = Node tag attrib text tail (kid_ids 1 children) None
                     :: flatten_all (Some 0) 1 children).
    { unfold s. apply flatten_unfold. }
    assert (Hseg : seg s 1 (flatten_all (Some 0) 1 children)).
    { intros k n Hk. rewrite Hs. exact Hk. }
    assert (Hlens : 1 + list_sum (map size children) <= length s).
    { rewrite Hs. cbn [length]. rewrite flatten_all_length'. lia. }
    assert (Hn0 : s !! 0 = Some (Node tag attrib text tail (kid_ids 1 children) None)).
    { rewrite Hs. reflexivity. }
    destruct (pass_children target_url root s children
                ltac:(apply Forall_forall; intros e _; apply pass_element; exact Hroot)
                0 1 s s1 _ [] Hseg Hseg ltac:(lia) Hlens Hn0 eq_refl)
      as (_ & _ & kept & F & Hp & Hreps & HF & HndF).
    - intros c Hc. apply elem_of_nil in Hc. contradiction.
    - exact Hrun.
    - exists F. split.
      + apply (rep_node s1 0 _ (flat_map (link root) children) F Hp). exact Hreps.
      + constructor; [|exact HndF]. intros Hk. apply HF in Hk. lia. }
  destruct Hrep as (F & Hrep & Hnd).
  assert (Hsub : subtree (length s1) s1 0 = 0 :: F).
  { apply (proj1 (rep_snapshot s1) _ _ _ Hrep).
    rewrite <- (proj1 (rep_length s1) _ _ _ Hrep).
    apply NoDup_below; [exact Hnd|apply (proj1 (rep_valid s1) _ _ _ Hrep)]. }
  rewrite Hsub.
  destruct (for_each_elements_once (0 :: F) Hnd s1) as (s2 & Hrun2 & Hslots).
  { apply (proj1 (rep_valid s1) _ _ _ Hrep). }
  rewrite Hrun2.
  assert (Hrep2 : rep s2 0 (emphasise (link_document root doc)) (0 :: F)).
  { apply (proj1 (rep_emphasise s1 s2) _ _ _ Hrep).
    intros j n Hj Hn. rewrite (Hslots j n Hn).
    rewrite bool_decide_true by exact Hj. reflexivity. }
  assert (Hsnap : snapshot (length s2) s2 0
                  = Some (emphasise (link_document root doc))).
  { apply (proj1 (rep_snapshot s2) _ _ _ Hrep2).
    rewrite <- (proj1 (rep_length s2) _ _ _ Hrep2).
    apply NoDup_below; [exact Hnd|apply (proj1 (rep_valid s2) _ _ _ Hrep2)]. }
  rewrite Hsnap. reflexivity.
Qed.

End Refinement.

(** ** process_page: the anchors that stop it *)

Section StopFacts.
Context `{Interp}.




Lemma inside_or P Q (doc : element) :
  inside (fun tag attrib text => P tag attrib text \/ Q tag attrib text) doc ->
  inside P doc \/ inside Q doc.
Proof.
  induction 1 as [tag attrib text children tail ctag cattrib ctext ckids ctail Hin HP
                 |tag attrib text children tail c Hin Hc IH].
  - destruct HP as [HP|HQ]; [left|right]; eapply inside_child; eassumption.
  - destruct IH as [IH|IH]; [left|right]; eapply inside_deeper; eassumption.
Qed.


(** *** A target without a root

    A run that ends well for a target that has no root never asked for
    the root, and ends in the same way for every other target. *)






(** *** The hrefs of the anchors *)

Definition kids (e : element) : list element :=
  match e with
  | Element _ _ _ children _ => children
  end.











(** *** An anchor without text and its tail *)

Lemma inside_without P tag attrib text (pre post : list element) (a : element) tail :
  inside P (Element tag attrib text (pre ++ post) tail) ->
  inside P (Element tag attrib text (pre ++ a :: post) tail).
Proof.
  assert (Hsub : forall c, c ∈ pre ++ post -> c ∈ pre ++ a :: post).
  { intros c [Hc|Hc]%elem_of_app; apply elem_of_app; [left; exact Hc|right].
    apply list_elem_of_further, Hc. }
  intros Hin.
  inversion Hin as [? ? ? ? ? ctag cattrib ctext ckids ctail Hc HP
                   |? ? ? ? ? c Hc Hd]; subst.
  - eapply inside_child; [apply Hsub; exact Hc|exact HP].
  - eapply inside_deeper; [apply Hsub; exact Hc|exact Hd].
Qed.

(** The page of a document with an anchor without text is the page of the
    document without that anchor and without the text behind it. *)
Lemma process_document_blank_anchor
    (target_url root : str) tag attrib text (pre post : list element) tail
    cattrib ctext ckids ctail :
  schemeful_domain target_url = inr root ->
  has_text ctext = false ->
  ~ inside (stops target_url)
      (Element tag attrib text (pre ++ Element A_TAG cattrib ctext ckids ctail :: post)
         tail) ->
  process_document target_url
    (Element tag attrib text (pre ++ Element A_TAG cattrib ctext ckids ctail :: post)
       tail)
  = process_document target_url (Element tag attrib text (pre ++ post) tail)
  /\ exists page,
       process_document target_url (Element tag attrib text (pre ++ post) tail)
       = inr page.
Proof.
  intros Hroot Ht Hgood.
  assert (Hgood' : ~ inside (stops target_url) (Element tag attrib text (pre ++ post) tail)).
  { intros Hin. apply Hgood. apply inside_without. exact Hin. }
  rewrite (process_document_link _ _ _ Hroot Hgood).
  rewrite (process_document_link _ _ _ Hroot Hgood').
  split; [|eauto].
  cbn [link_document]. rewrite !flat_map_app. cbn [flat_map link].
  assert (str_eqb A_TAG A_TAG = true) as ->
      by (unfold str_eqb; apply bool_decide_true; reflexivity).
  rewrite Ht. reflexivity.
Qed.

(** *** What the cleaner makes of an anchor without href *)







End StopFacts.

(** ** The pattern of URLValidator: what it takes an address to be *)







(** ** process_page: the page it returns, the hrefs and the anchors it trips over *)







(** C5, on a page whose anchor has no text: the first loop takes the
    anchor out with the text behind it, so the page comes out without the
    words [over the rainbow]. For a target that has a root and a document
    on which [process_page] does not raise, the page of a document with
    an anchor without text below its root is the page of the document
    without that anchor and without its tail. The page of
    [test_tail_parsing], whose anchor has text, comes out as the test
    expects. *)
Theorem tail_of_removed_anchor_is_lost :
  (forall (I : Interp) target_url root tag attrib text pre post tail
          cattrib ctext ckids ctail,
     schemeful_domain target_url = inr root ->
     has_text ctext = false ->
     ~ inside (stops target_url)
         (Element tag attrib text
            (pre ++ Element A_TAG cattrib ctext ckids ctail :: post) tail) ->
     process_document target_url
       (Element tag attrib text
          (pre ++ Element A_TAG cattrib ctext ckids ctail :: post) tail)
     = process_document target_url (Element tag attrib text (pre ++ post) tail)
     /\ exists page,
          process_document target_url (Element tag attrib text (pre ++ post) tail)
          = inr page)
  /\ @process_page ascii_in_order
       (markup "<div><a href='#'></a> over the rainbow</div>") GOOGLE
     = inr (markup "<div></div>")
  /\ @process_page ascii_in_order
       (markup "<div><a href='#'>Somewhere</a> over the rainbow</div>") GOOGLE
     = inr (markup "<div><a href='https://google.com/#'><em><strong>Somewhere</strong> </em></a>over the <strong>rainbow</strong> </div>").
Proof.
  split; [|split; vm_compute; reflexivity].
  intros I target_url root tag attrib text pre post tail cattrib ctext ckids ctail.
  apply process_document_blank_anchor.
Qed.

Lemma tail_of_removed_anchor_is_lost_witness :
  @process_document ascii_in_order GOOGLE
    (Element DIV [] None
       [Element A_TAG [(HREF, lit "#")] None [] (Some (lit " over the rainbow"))] None)
  = @process_document ascii_in_order GOOGLE (Element DIV [] None [] None).
Proof.
  apply (proj1 tail_of_removed_anchor_is_lost ascii_in_order GOOGLE GOOGLE
           DIV [] None [] [] None [(HREF, lit "#")] None []
           (Some (lit " over the rainbow"))).
  - reflexivity.
  - reflexivity.
  - intros [Hin|Hin]%inside_or;
      inversion Hin as [? ? ? ? ? ? ? ? ? ? Hc HP|? ? ? ? ? c Hc Hd]; subst.
    + apply list_elem_of_singleton in Hc. injection Hc as -> -> -> -> ->.
      destruct HP as (_ & Ht & _). discriminate.
    + apply list_elem_of_singleton in Hc. subst c.
      inversion Hd as [? ? ? ? ? ? ? ? ? ? Hc' _|? ? ? ? ? c' Hc' _]; subst;
        apply elem_of_nil in Hc'; contradiction.
    + apply list_elem_of_singleton in Hc. injection Hc as -> -> -> -> ->.
      destruct HP as (_ & Ht & _). discriminate.
    + apply list_elem_of_singleton in Hc. subst c.
      inversion Hd as [? ? ? ? ? ? ? ? ? ? Hc' _|? ? ? ? ? c' Hc' _]; subst;
        apply elem_of_nil in Hc'; contradiction.
Defined.




(** ** sterilize_page: cleaning a cleaned document *)

Lemma verdict_div : verdict_of false DIV = Unwrap.
Proof. vm_compute. reflexivity. Qed.

Section CleanTwice.
Context `{Interp}.
Hypothesis rewrite_link_twice :
  forall link, rewrite_link (rewrite_link link) = rewrite_link link.

Lemma clean_attrib_twice (attrib : list (str * str)) :
  clean_attrib (clean_attrib attrib) = clean_attrib attrib.
Proof.
  unfold clean_attrib. induction attrib as [|[k v] attrib IH]; [reflexivity|].
  rewrite filter_cons. cbn [fst]. destruct (decide (k ∈ safe_attrs)) as [Hk|Hk].
  - cbn [map fst snd]. rewrite filter_cons_True by exact Hk.
    cbn [map fst snd]. rewrite rewrite_link_twice, IH. reflexivity.
  - exact IH.
Qed.

(** An anchor the cleaner has nothing left to do on. *)
#[warnings="-register-all"]
Inductive settled : element -> Prop :=
| settled_anchor attrib text children tail :
    clean_attrib attrib = attrib ->
    Forall settled children ->
    settled (Element A_TAG attrib text children tail).

Lemma settled_add_tail (t : str) (e : element) :
  settled e -> settled (add_tail t e).
Proof. intros [attrib text children tail Ha Hc]. constructor; assumption. Qed.

Lemma attach_settled (t : option str) (c : content) :
  Forall settled (snd c) -> Forall settled (snd (attach t c)).
Proof.
  intros Hc. destruct t as [[|x t']|]; cbn [attach]; try assumption.
  destruct c as [text [|e done]]; cbn [snd] in *; [constructor|].
  inversion Hc; subst. constructor; [apply settled_add_tail|]; assumption.
Qed.

Lemma clean_children_settles (embedded : bool) (l : list element) :
  Forall (fun e => forall emb c,
            Forall settled (snd c) -> Forall settled (snd (clean_element emb e c))) l ->
  forall c,
    Forall settled (snd c) -> Forall settled (snd (clean_children embedded l c)).
Proof.
  induction 1 as [|e l He _ IH]; intros c Hc; [exact Hc|].
  cbn [clean_children fold_left].
  fold (clean_children embedded l (clean_element embedded e c)).
  apply IH, He, Hc.
Qed.

Lemma clean_element_settles (e : element) :
  forall emb c,
    Forall settled (snd c) -> Forall settled (snd (clean_element emb e c)).
Proof.
  induction e as [tag attrib text children tail IH] using element_rect_children.
  intros emb c Hc. rewrite clean_element_unfold.
  destruct (verdict_of emb tag) eqn:V.
  - pose proof (clean_children_settles (emb || embeds tag) children IH (text, [])
                  (Forall_nil _)) as Hk.
    destruct (clean_children (emb || embeds tag) children (text, []))
      as [text' kids].
    cbn [snd] in *. constructor; [|exact Hc].
    rewrite (verdict_Keep _ _ V). constructor; [apply clean_attrib_twice|].
    apply Forall_rev, Hk.
  - apply attach_settled, Hc.
  - apply attach_settled, (clean_children_settles _ _ IH), attach_settled, Hc.
Qed.

Lemma clean_children_kept (embedded : bool) (l : list element) :
  Forall (fun e => forall emb c, clean_element emb e c = (fst c, e :: snd c)) l ->
  forall c, clean_children embedded l c = (fst c, rev l ++ snd c).
Proof.
  induction 1 as [|e l He _ IH]; intros c.
  - destruct c. reflexivity.
  - cbn [clean_children fold_left].
    fold (clean_children embedded l (clean_element embedded e c)).
    rewrite IH, He. cbn [fst snd rev]. rewrite <- app_assoc. reflexivity.
Qed.

(** The cleaner leaves a settled anchor as it is. *)
Lemma clean_element_kept (e : element) :
  settled e -> forall emb c, clean_element emb e c = (fst c, e :: snd c).
Proof.
  induction e as [tag attrib text children tail IH] using element_rect_children.
  intros Hs emb c. inversion Hs as [? ? ? ? Ha Hc]; subst.
  rewrite clean_element_unfold, verdict_anchor.
  rewrite clean_children_kept.
  - cbn [fst snd]. rewrite app_nil_r, rev_involutive, Ha. reflexivity.
  - rewrite list.Forall_forall in IH, Hc. apply list.Forall_forall.
    intros e He. apply IH; [exact He|apply Hc, He].
Qed.

Lemma clean_children_settled (embedded : bool) (kids : list element) (text : option str) :
  Forall settled kids ->
  clean_children embedded (rev kids) (text, []) = (text, kids).
Proof.
  intros Hk. rewrite clean_children_kept.
  - cbn [fst snd]. rewrite app_nil_r, rev_involutive. reflexivity.
  - apply Forall_rev. eapply Forall_impl; [|exact Hk].
    intros e He. apply clean_element_kept. exact He.
Qed.

(** X18. Cleaning is idempotent on documents when the link filter is:
    the cleaner returns the document it made unchanged when it is run on
    it again. *)
Theorem clean_document_twice (doc d : element) :
  clean_document doc = inr d -> clean_document d = inr d.
Proof.
  destruct doc as [tag attrib text children tail]. unfold clean_document at 1.
  assert (HA : bool_decide (A_TAG = PARAM) = false) by (vm_compute; reflexivity).
  assert (HD : bool_decide (DIV = PARAM) = false) by (vm_compute; reflexivity).
  destruct (if bool_decide (tag = PARAM) then Unwrap else verdict_of false tag) eqn:V.
  - assert (tag = A_TAG) as ->.
    { destruct (bool_decide (tag = PARAM)); [discriminate|].
      eapply verdict_Keep; exact V. }
    pose proof (clean_children_settles (embeds A_TAG) children
                  ltac:(apply Forall_forall; intros e _; apply clean_element_settles)
                  (text, []) (Forall_nil _)) as Hk.
    destruct (clean_children (embeds A_TAG) children (text, [])) as [text' kids].
    cbn [snd] in Hk. intros [= <-].
    unfold clean_document.
    rewrite HA, verdict_anchor, (clean_children_settled _ _ _ Hk).
    rewrite clean_attrib_twice. reflexivity.
  - intros [= <-]. unfold clean_document. rewrite HD, verdict_div. reflexivity.
  - pose proof (clean_children_settles (embeds tag) children
                  ltac:(apply Forall_forall; intros e _; apply clean_element_settles)
                  (text, []) (Forall_nil _)) as Hk.
    destruct (clean_children (embeds tag) children (text, [])) as [text' kids].
    cbn [snd] in Hk. intros [= <-].
    unfold clean_document.
    rewrite HD, verdict_div, (clean_children_settled _ _ _ Hk). reflexivity.
Qed.

End CleanTwice.

(** The link filter of the ASCII interpreter is idempotent. *)

Definition lstrip (s : str) : str := snd (span Ascii7.isspace s).

Definition bare (s : str) : str :=
  filter (fun c => negb (Ascii7.isspace c || N.ltb c 26)) (Ascii7.str_lower s).

Lemma isspace_tolower (c : char) :
  Ascii7.isspace c = true -> Ascii7.tolower c = c.
Proof.
  unfold Ascii7.isspace, Ascii7.tolower, Ascii7.isupper.
  rewrite orb_true_iff, !between_spec. intros Hc.
  destruct (Ascii7.between 65 90 c) eqn:E; [|reflexivity].
  apply between_spec in E. lia.
Qed.

Lemma bare_cons_space (c : char) (s : str) :
  Ascii7.isspace c = true -> bare (c :: s) = bare s.
Proof.
  intros Hc. unfold bare, Ascii7.str_lower. cbn [map].
  rewrite (isspace_tolower c Hc).
  apply filter_cons_False. rewrite Hc. cbn. tauto.
Qed.

Lemma bare_lstrip (s : str) : bare (lstrip s) = bare s.
Proof.
  unfold lstrip. induction s as [|c s IH]; [reflexivity|].
  cbn [span]. destruct (Ascii7.isspace c) eqn:Hc; [|reflexivity].
  destruct (span Ascii7.isspace s) as [a b]. cbn [snd] in *.
  rewrite bare_cons_space by exact Hc. exact IH.
Qed.

Lemma bare_app (a b : str) : bare (a ++ b) = bare a ++ bare b.
Proof.
  unfold bare, Ascii7.str_lower. rewrite map_app. apply list.filter_app.
Qed.

Lemma bare_rev (s : str) : bare (rev s) = rev (bare s).
Proof.
  induction s as [|c s IH]; [reflexivity|].
  cbn [rev]. rewrite bare_app, IH.
  change (c :: s) with ([c] ++ s). rewrite bare_app, rev_app_distr.
  f_equal.
  assert (Hlen : length (bare [c]) <= 1).
  { unfold bare. apply (length_filter _ [Ascii7.tolower c]). }
  destruct (bare [c]) as [|x [|y l]]; cbn in *; [reflexivity|reflexivity|lia].
Qed.

Lemma strip_lstrip (s : str) : strip s = rev (lstrip (rev (lstrip s))).
Proof. reflexivity. Qed.

Lemma bare_strip (s : str) : bare (strip s) = bare s.
Proof.
  rewrite strip_lstrip, bare_rev, bare_lstrip, bare_rev, rev_involutive.
  apply bare_lstrip.
Qed.

Lemma lstrip_head (s : str) :
  match lstrip s with
  | [] => True
  | c :: _ => Ascii7.isspace c = false
  end.
Proof.
  unfold lstrip. induction s as [|c s IH]; [exact I|].
  cbn [span]. destruct (Ascii7.isspace c) eqn:Hc; [|exact Hc].
  destruct (span Ascii7.isspace s) as [a b]. exact IH.
Qed.

Lemma lstrip_kept (s : str) :
  match s with
  | [] => True
  | c :: _ => Ascii7.isspace c = false
  end -> lstrip s = s.
Proof.
  destruct s as [|c s]; [reflexivity|]. intros Hc.
  unfold lstrip. cbn [span]. rewrite Hc. reflexivity.
Qed.

Lemma lstrip_twice (s : str) : lstrip (lstrip s) = lstrip s.
Proof. apply lstrip_kept, lstrip_head. Qed.

Lemma lstrip_snoc (s : str) (c : char) :
  Ascii7.isspace c = false -> lstrip (s ++ [c]) = lstrip s ++ [c].
Proof.
  intros Hc. unfold lstrip. induction s as [|x s IH]; cbn [app span].
  - rewrite Hc. reflexivity.
  - destruct (Ascii7.isspace x); [|reflexivity].
    destruct (span Ascii7.isspace (s ++ [c])) as [a b].
    destruct (span Ascii7.isspace s) as [a' b']. exact IH.
Qed.

Lemma strip_twice (s : str) : strip (strip s) = strip s.
Proof.
  rewrite !strip_lstrip.
  assert (E : lstrip (rev (lstrip (rev (lstrip s)))) = rev (lstrip (rev (lstrip s)))).
  { pose proof (lstrip_head s) as Hh.
    destruct (lstrip s) as [|c t]; [reflexivity|].
    cbn [rev]. rewrite (lstrip_snoc _ _ Hh), rev_app_distr. cbn [rev app].
    apply lstrip_kept. exact Hh. }
  rewrite E, rev_involutive, lstrip_twice. reflexivity.
Qed.

Lemma ascii_rewrite_link_twice (link : str) :
  ascii_rewrite_link (ascii_rewrite_link link) = ascii_rewrite_link link.
Proof.
  assert (Hr : forall l, ascii_rewrite_link l
                         = if holds_any script_schemes (bare l) then [] else strip l)
    by reflexivity.
  rewrite (Hr link).
  destruct (holds_any script_schemes (bare link)) eqn:E; [reflexivity|].
  rewrite Hr, bare_strip, E. apply strip_twice.
Qed.

Lemma clean_document_twice_witness :
  @clean_document ascii_in_order
    (Element DIV [] (Some (lit "see "))
       [Element A_TAG [(HREF, lit "x")] (Some (lit "this")) [] None] None)
  = inr (Element DIV [] (Some (lit "see "))
           [Element A_TAG [(HREF, lit "x")] (Some (lit "this")) [] None] None).
Proof.
  apply (@clean_document_twice ascii_in_order ascii_rewrite_link_twice
           (Element (lit "p") [] (Some (lit "see "))
              [Element A_TAG [(HREF, lit " x "); (lit "id", lit "i")]
                 (Some (lit "this")) [] None] None)).
  vm_compute. reflexivity.
Defined.
